(** * A shallow embedding of the [cas] content-addressable store

    The development follows the Go sources:
    - [schema]  : the typed schema-object layer (magic prefix, type registry,
                  [Encode], [Decode], [DecodeType], [PeekType]);
    - [local]   : the Linux blob directory engine ([linkFile], [tmpFile],
                  the methods of an anonymous temporary file, [Commit]);
    - [cas]     : [HashWith], [Hash], and the hooks of [ext.go] that go by
                  the extension of a file name;
    - [main]    : the functions of the commands [cas init].

    Go's [io] and [encoding/json] packages are modelled as far as the
    functions above use them.  Part I holds the definitions, Part II the
    lemmas and theorems. *)

From Stdlib Require Import ZArith NArith List Lia DecimalFacts DecimalN.
From Stdlib.Strings Require Import Byte String Ascii.
From stdpp Require Import base decidable countable option list gmap.

Set Default Proof Using "Type".
Local Open Scope N_scope.
Local Open Scope nat_scope.

(* ===================================================================== *)
(** * Part I: definitions                                                  *)
(* ===================================================================== *)

(** ** Bytes *)

Abbreviation bytes := (list byte).

(** A Go string literal, as its bytes. *)
Definition bs (s : string) : bytes := list_byte_of_string s.

#[global] Instance byte_eq_decision : EqDecision byte := Byte.byte_eq_dec.

#[global] Instance byte_countable : Countable byte.
Proof.
  refine (inj_countable Byte.to_N Byte.of_N _).
  intros b. apply Byte.of_to_N.
Defined.

(** Named bytes that occur in the sources and in JSON text. *)
Definition NL : byte := x0a.        (* '\n' *)
Definition CR : byte := x0d.        (* '\r' *)
Definition HT : byte := x09.        (* '\t' *)
Definition SP : byte := x20.        (* ' '  *)
Definition QUOTE : byte := x22.     (* the double quote *)
Definition BACKSLASH : byte := x5c.
Definition COMMA : byte := x2c.
Definition COLON : byte := x3a.
Definition LBRACE : byte := x7b.
Definition RBRACE : byte := x7d.
Definition LBRACKET : byte := x5b.
Definition RBRACKET : byte := x5d.

(** [p[:n]] and [p[n:]] with the bound kept in binary, so that a bound such
    as 16 MiB never has to be built in unary. *)
Fixpoint takeN {A} (n : N) (l : list A) : list A :=
  match l with
  | [] => []
  | x :: l' => if N.eqb n 0 then [] else x :: takeN (N.pred n) l'
  end.

Fixpoint dropN {A} (n : N) (l : list A) : list A :=
  match l with
  | [] => []
  | x :: l' => if N.eqb n 0 then l else dropN (N.pred n) l'
  end.

Definition lenN {A} (l : list A) : N := N.of_nat (length l).

(** ** Package [io]: readers as streams *)

Module io.

(** The error values a reader can produce.  [EOF] and [ErrUnexpectedEOF]
    are the two sentinels of package [io]; [Failure] stands for any other
    error value (a failing disk, a closed connection). *)
Inductive error :=
| EOF
| ErrUnexpectedEOF
| Failure (code : N).

#[global] Instance error_eq_decision : EqDecision error.
Proof. solve_decision. Defined.

(** The state of an [io.Reader]: the bytes it still delivers, and the
    error it returns once they are exhausted ([EOF] for a stream that
    simply ends). *)
Record Reader := mkReader { pending : bytes; final : error }.

(** [bytes.NewReader(m)] *)
Definition NewReader (m : bytes) : Reader := mkReader m EOF.

(** [io.MultiReader(a, b)]: [a] until its end of input, then [b]; an
    error of [a] other than [EOF] ends the concatenation. *)
Definition MultiReader (a b : Reader) : Reader :=
  match final a with
  | EOF => mkReader (pending a ++ pending b) (final b)
  | _ => a
  end.

(** [io.ReadFull(r, buf)] with [len(buf) = n]: exactly [n] bytes, or the
    error: [EOF] if nothing was read, [ErrUnexpectedEOF] if the input
    ended after some bytes, any other error as it is.  The second
    component is the reader afterwards. *)
Definition ReadFull (r : Reader) (n : nat) : (bytes + error) * Reader :=
  if decide (n ≤ length (pending r))
  then (inl (take n (pending r)), mkReader (drop n (pending r)) (final r))
  else (inr (match pending r, final r with
             | _ :: _, EOF => ErrUnexpectedEOF
             | _, e => e
             end),
        mkReader [] (final r)).

(** [io.LimitedReader]: the value [io.LimitReader(r, n)] points to. *)
Record LimitedReader := mkLimited { lr_R : Reader; lr_N : N }.

Definition LimitReader (r : Reader) (n : N) : LimitedReader := mkLimited r n.

(** [ioutil.ReadAll] on a limited reader: the data, the error ([None] for
    nil: the end of input is not an error for [ReadAll]) and the limited
    reader afterwards, whose [R] is the underlying reader where the read
    stopped. *)
Definition ReadAll (l : LimitedReader) : (bytes * option error) * LimitedReader :=
  let r := lr_R l in
  let data := takeN (lr_N l) (pending r) in
  if N.leb (lr_N l) (lenN (pending r))
  then ((data, None), mkLimited (mkReader (dropN (lr_N l) (pending r)) (final r)) 0%N)
  else ((data, match final r with EOF => None | e => Some e end),
        mkLimited (mkReader [] (final r)) (lr_N l - lenN data)%N).

(** [io.Copy(dst, src)] into a destination whose [Write] never fails (a
    hash): the bytes written and the error; the end of input is not one. *)
Definition Copy (src : Reader) : bytes * option error :=
  (pending src, match final src with EOF => None | e => Some e end).

(** An [io.Writer]: what was written to it, and, if its [Write] fails,
    the number of bytes it takes of a call before it fails and the error
    it returns. *)
Record Writer := mkWriter { written : bytes; broken : option (nat * error) }.

(** A fresh [bytes.Buffer]. *)
Definition Buffer : Writer := mkWriter [] None.

(** [w.Write(p)], without the count, which the caller here drops: a
    failing writer keeps the bytes it took before it failed. *)
Definition Write (w : Writer) (p : bytes) : Writer * option error :=
  match broken w with
  | Some (n, e) => (mkWriter (written w ++ take n p) (broken w), Some e)
  | None => (mkWriter (written w ++ p) None, None)
  end.

End io.

(** ** Package [types]: content references *)

Module types.

(** Modelled from the spec: package [types] is not among the sources.  A
    [Ref] is an immutable content-hash digest with a canonical lowercase
    fixed-length string encoding, used as file name and as JSON value; a
    distinguished zero value denotes "absent". *)
Record Ref := mkRef { digest : bytes }.

#[global] Instance Ref_eq_decision : EqDecision Ref.
Proof. solve_decision. Defined.

(** Width of a digest in bytes. *)
Definition Size : nat := 32.

Definition zero : Ref := mkRef (replicate Size x00).

(** [Ref.Zero()] *)
Definition Zero (r : Ref) : bool := bool_decide (r = zero).

Definition byteN (n : N) : byte := default x00 (Byte.of_N n).

Definition hexdigit (n : N) : byte :=
  nth (N.to_nat n) (bs "0123456789abcdef") x00.

Definition unhexdigit (b : byte) : option N :=
  let n := Byte.to_N b in
  if (N.leb 48 n && N.leb n 57)%bool then Some (n - 48)%N
  else if (N.leb 97 n && N.leb n 102)%bool then Some (n - 87)%N
  else None.

Fixpoint hex (l : bytes) : bytes :=
  match l with
  | [] => []
  | b :: l' =>
      hexdigit (Byte.to_N b / 16) :: hexdigit (Byte.to_N b mod 16) :: hex l'
  end.

Fixpoint unhex (s : bytes) : option bytes :=
  match s with
  | [] => Some []
  | h :: l :: s' =>
      match unhexdigit h, unhexdigit l with
      | Some a, Some b => cons (byteN (16 * a + b)) <$> unhex s'
      | _, _ => None
      end
  | [_] => None
  end.

(** [Ref.String()] *)
Definition String (r : Ref) : bytes := hex (digest r).

(** The inverse of [String]: the text must have the fixed length. *)
Definition ParseRef (s : bytes) : option Ref :=
  if decide (length s = 2 * Size) then mkRef <$> unhex s else None.

(** A reference as produced by hashing: its digest has the fixed width. *)
Definition valid (r : Ref) : Prop := length (digest r) = Size.

(** [SizedRef]: a reference with the byte length of the blob. *)
Record SizedRef := mkSizedRef { SizedRef_Ref : Ref; SizedRef_Size : Z }.

End types.

(** ** Package [reflect]: the shapes of schema objects *)

Module reflect.

(** The kinds of struct fields that occur in schema objects. *)
Inductive Kind := String | Uint64 | Ref.

#[global] Instance Kind_eq_decision : EqDecision Kind.
Proof. solve_decision. Defined.

#[global] Instance Kind_countable : Countable Kind.
Proof.
  refine (inj_countable'
            (fun k => match k with String => 0 | Uint64 => 1 | Ref => 2 end)
            (fun n => match n with 0 => String | 1 => Uint64 | _ => Ref end) _).
  intros []; reflexivity.
Defined.

(** An exported struct field as [encoding/json] sees it: the key of its
    [json] tag and the [omitempty] option. *)
Record StructField := mkField {
  Name : bytes;
  FieldKind : Kind;
  OmitEmpty : bool
}.

#[global] Instance StructField_eq_decision : EqDecision StructField.
Proof. solve_decision. Defined.

#[global] Instance StructField_countable : Countable StructField.
Proof.
  refine (inj_countable'
            (fun f => (Name f, FieldKind f, OmitEmpty f))
            (fun t => mkField t.1.1 t.1.2 t.2) _).
  intros []; reflexivity.
Defined.

(** A named struct type. *)
Record Type_ := mkType { TypeName : bytes; Fields : list StructField }.

#[global] Instance Type_eq_decision : EqDecision Type_.
Proof. solve_decision. Defined.

#[global] Instance Type_countable : Countable Type_.
Proof.
  refine (inj_countable' (fun t => (TypeName t, Fields t)) (fun p => mkType p.1 p.2) _).
  intros []; reflexivity.
Defined.

(** The value of a field. *)
Inductive Value :=
| VString (s : bytes)
| VUint64 (n : N)
| VRef (r : types.Ref).

#[global] Instance Value_eq_decision : EqDecision Value.
Proof. solve_decision. Defined.

(** [reflect.Zero] of a field kind. *)
Definition Zero (k : Kind) : Value :=
  match k with
  | String => VString []
  | Uint64 => VUint64 0
  | Ref => VRef types.zero
  end.

(** A struct value: its type and the values of its fields, in the order
    of declaration. *)
Record Struct := mkStruct { TypeOf : Type_; FieldValues : list Value }.

#[global] Instance Struct_eq_decision : EqDecision Struct.
Proof. solve_decision. Defined.

(** [reflect.New(rt)]: a struct of type [rt] with every field zero. *)
Definition New (rt : Type_) : Struct :=
  mkStruct rt ((fun f => Zero (FieldKind f)) <$> Fields rt).

Definition has_kind (f : StructField) (v : Value) : Prop :=
  match FieldKind f, v with
  | String, VString _ => True
  | Uint64, VUint64 n => (n < 2 ^ 64)%N
  | Ref, VRef r => types.valid r
  | _, _ => False
  end.

End reflect.

(** ** Package [encoding/json] *)

Module json.

(** A JSON document.  A number keeps its literal: Go converts it only
    when it is stored into a field. *)
#[local] Unset Elimination Schemes.
Inductive Value :=
| Null
| Bool (b : bool)
| Number (literal : bytes)
| String (s : bytes)
| Array (elems : list Value)
| Object (members : list (bytes * Value)).
#[local] Set Elimination Schemes.

Inductive Error :=
| SyntaxError            (* the input is not a JSON document *)
| UnmarshalTypeError     (* a JSON value does not fit the Go field *)
| RefError.              (* the text of a reference was refused *)

(** *** Text of strings and numbers *)

Definition is_space (b : byte) : bool :=
  Byte.eqb b SP || Byte.eqb b HT || Byte.eqb b NL || Byte.eqb b CR.

Fixpoint skip_space (s : bytes) : bytes :=
  match s with
  | b :: s' => if is_space b then skip_space s' else s
  | [] => []
  end.

Definition is_digit (b : byte) : bool :=
  N.leb 48 (Byte.to_N b) && N.leb (Byte.to_N b) 57.

Definition hexval (b : byte) : option N :=
  let n := Byte.to_N b in
  if (N.leb 48 n && N.leb n 57)%bool then Some (n - 48)%N
  else if (N.leb 97 n && N.leb n 102)%bool then Some (n - 87)%N
  else if (N.leb 65 n && N.leb n 70)%bool then Some (n - 55)%N
  else None.

Definition hex4 (a b c d : byte) : option N :=
  match hexval a, hexval b, hexval c, hexval d with
  | Some a, Some b, Some c, Some d => Some (((a * 16 + b) * 16 + c) * 16 + d)%N
  | _, _, _, _ => None
  end.

(** UTF-8 encoding of a code point. *)
Definition utf8 (c : N) : bytes :=
  if N.ltb c 128 then [types.byteN c]
  else if N.ltb c 2048 then
    [types.byteN (192 + c / 64); types.byteN (128 + c mod 64)]
  else if N.ltb c 65536 then
    [types.byteN (224 + c / 4096); types.byteN (128 + (c / 64) mod 64);
     types.byteN (128 + c mod 64)]
  else
    [types.byteN (240 + c / 262144); types.byteN (128 + (c / 4096) mod 64);
     types.byteN (128 + (c / 64) mod 64); types.byteN (128 + c mod 64)].

Definition replacement : N := 65533.    (* U+FFFD *)
Definition high_surrogate (c : N) : bool := N.leb 55296 c && N.ltb c 56320.
Definition low_surrogate (c : N) : bool := N.leb 56320 c && N.ltb c 57344.

(** The character of a one-letter escape. *)
Definition unescape (e : byte) : option byte :=
  if Byte.eqb e QUOTE then Some QUOTE
  else if Byte.eqb e BACKSLASH then Some BACKSLASH
  else if Byte.eqb e "/"%byte then Some "/"%byte
  else if Byte.eqb e "b"%byte then Some x08
  else if Byte.eqb e "f"%byte then Some x0c
  else if Byte.eqb e "n"%byte then Some NL
  else if Byte.eqb e "r"%byte then Some CR
  else if Byte.eqb e "t"%byte then Some HT
  else None.

Definition prepend (p : bytes) (r : option (bytes * bytes)) : option (bytes * bytes) :=
  match r with
  | Some (s, rest) => Some (p ++ s, rest)
  | None => None
  end.

(** The text after an opening quote: the string it denotes and what
    follows the closing quote.  Bytes from 128 on are taken as they are
    (Go does so for well-formed UTF-8; ill-formed text is outside this
    model). *)
Fixpoint scan_string (s : bytes) : option (bytes * bytes) :=
  match s with
  | [] => None
  | b :: r =>
    if Byte.eqb b QUOTE then Some ([], r)
    else if Byte.eqb b BACKSLASH then
      match r with
      | [] => None
      | e :: r1 =>
        if Byte.eqb e "u"%byte then
          match r1 with
          | h1 :: h2 :: h3 :: h4 :: r2 =>
            match hex4 h1 h2 h3 h4 with
            | None => None
            | Some c =>
              if high_surrogate c then
                match r2 with
                | b1 :: b2 :: l1 :: l2 :: l3 :: l4 :: r3 =>
                  match hex4 l1 l2 l3 l4 with
                  | Some c2 =>
                    if Byte.eqb b1 BACKSLASH && Byte.eqb b2 "u"%byte && low_surrogate c2
                    then prepend (utf8 (65536 + (c - 55296) * 1024 + (c2 - 56320))%N)
                                 (scan_string r3)
                    else prepend (utf8 replacement) (scan_string r2)
                  | None => prepend (utf8 replacement) (scan_string r2)
                  end
                | _ => prepend (utf8 replacement) (scan_string r2)
                end
              else if low_surrogate c then prepend (utf8 replacement) (scan_string r2)
              else prepend (utf8 c) (scan_string r2)
            end
          | _ => None
          end
        else
          match unescape e with
          | Some c => prepend [c] (scan_string r1)
          | None => None
          end
      end
    else if N.ltb (Byte.to_N b) 32 then None
    else prepend [b] (scan_string r)
  end.

Fixpoint span_digits (s : bytes) : bytes * bytes :=
  match s with
  | b :: r =>
    if is_digit b then let '(d, r') := span_digits r in (b :: d, r') else ([], s)
  | [] => ([], [])
  end.

(** Exponent part of a number, after the text [acc]. *)
Definition scan_exp (acc s : bytes) : option (bytes * bytes) :=
  match s with
  | e :: r =>
    if Byte.eqb e "e"%byte || Byte.eqb e "E"%byte then
      let '(sign, r1) :=
        match r with
        | c :: r' => if Byte.eqb c "+"%byte || Byte.eqb c "-"%byte then ([c], r') else ([], r)
        | [] => ([], r)
        end in
      match span_digits r1 with
      | ([], _) => None
      | (d, r2) => Some (acc ++ e :: sign ++ d, r2)
      end
    else Some (acc, s)
  | [] => Some (acc, s)
  end.

(** Fraction part of a number, after the text [acc]. *)
Definition scan_frac (acc s : bytes) : option (bytes * bytes) :=
  match s with
  | p :: r =>
    if Byte.eqb p "."%byte then
      match span_digits r with
      | ([], _) => None
      | (d, r1) => scan_exp (acc ++ p :: d) r1
      end
    else scan_exp acc s
  | [] => Some (acc, s)
  end.

(** A number literal at the head of [s], and what follows it. *)
Definition scan_number (s : bytes) : option (bytes * bytes) :=
  let '(sign, s1) :=
    match s with
    | c :: r => if Byte.eqb c "-"%byte then ([c], r) else ([], s)
    | [] => ([], s)
    end in
  match s1 with
  | b :: r1 =>
    if Byte.eqb b "0"%byte then scan_frac (sign ++ [b]) r1
    else if is_digit b then
      let '(d, r2) := span_digits r1 in scan_frac (sign ++ b :: d) r2
    else None
  | [] => None
  end.

(** [s] starts with the literal [lit]: what follows it. *)
Fixpoint strip_prefix (lit s : bytes) : option bytes :=
  match lit, s with
  | [], _ => Some s
  | c :: lit', b :: s' => if Byte.eqb c b then strip_prefix lit' s' else None
  | _ :: _, [] => None
  end.

(** *** The parser *)

(** Outcome of parsing a prefix of the input: a result and the rest of
    the input, a syntax error, or the recursion bound was reached. *)
Inductive parsed (A : Type) :=
| Parsed (a : A) (rest : bytes)
| Invalid
| Starved.
Arguments Parsed {A} a rest.
Arguments Invalid {A}.
Arguments Starved {A}.

Fixpoint parse_value (fuel : nat) (s : bytes) : parsed Value :=
  match fuel with
  | O => Starved
  | S fuel' =>
    match skip_space s with
    | [] => Invalid
    | b :: r =>
      if Byte.eqb b LBRACE then
        match skip_space r with
        | c :: r' =>
          if Byte.eqb c RBRACE then Parsed (Object []) r'
          else match parse_members fuel' r with
               | Parsed ms r'' => Parsed (Object ms) r''
               | Invalid => Invalid
               | Starved => Starved
               end
        | [] => Invalid
        end
      else if Byte.eqb b LBRACKET then
        match skip_space r with
        | c :: r' =>
          if Byte.eqb c RBRACKET then Parsed (Array []) r'
          else match parse_elements fuel' r with
               | Parsed vs r'' => Parsed (Array vs) r''
               | Invalid => Invalid
               | Starved => Starved
               end
        | [] => Invalid
        end
      else if Byte.eqb b QUOTE then
        match scan_string r with
        | Some (str, r') => Parsed (String str) r'
        | None => Invalid
        end
      else if Byte.eqb b "t"%byte then
        match strip_prefix (bs "rue") r with
        | Some r' => Parsed (Bool true) r'
        | None => Invalid
        end
      else if Byte.eqb b "f"%byte then
        match strip_prefix (bs "alse") r with
        | Some r' => Parsed (Bool false) r'
        | None => Invalid
        end
      else if Byte.eqb b "n"%byte then
        match strip_prefix (bs "ull") r with
        | Some r' => Parsed Null r'
        | None => Invalid
        end
      else
        match scan_number (b :: r) with
        | Some (lit, r') => Parsed (Number lit) r'
        | None => Invalid
        end
    end
  end
with parse_members (fuel : nat) (s : bytes) : parsed (list (bytes * Value)) :=
  match fuel with
  | O => Starved
  | S fuel' =>
    match skip_space s with
    | q :: r =>
      if Byte.eqb q QUOTE then
        match scan_string r with
        | Some (key, r1) =>
          match skip_space r1 with
          | c :: r2 =>
            if Byte.eqb c COLON then
              match parse_value fuel' r2 with
              | Parsed v r3 =>
                match skip_space r3 with
                | d :: r4 =>
                  if Byte.eqb d COMMA then
                    match parse_members fuel' r4 with
                    | Parsed ms r5 => Parsed ((key, v) :: ms) r5
                    | Invalid => Invalid
                    | Starved => Starved
                    end
                  else if Byte.eqb d RBRACE then Parsed [(key, v)] r4
                  else Invalid
                | [] => Invalid
                end
              | Invalid => Invalid
              | Starved => Starved
              end
            else Invalid
          | [] => Invalid
          end
        | None => Invalid
        end
      else Invalid
    | [] => Invalid
    end
  end
with parse_elements (fuel : nat) (s : bytes) : parsed (list Value) :=
  match fuel with
  | O => Starved
  | S fuel' =>
    match parse_value fuel' s with
    | Parsed v r1 =>
      match skip_space r1 with
      | d :: r2 =>
        if Byte.eqb d COMMA then
          match parse_elements fuel' r2 with
          | Parsed vs r3 => Parsed (v :: vs) r3
          | Invalid => Invalid
          | Starved => Starved
          end
        else if Byte.eqb d RBRACKET then Parsed [v] r2
        else Invalid
      | [] => Invalid
      end
    | Invalid => Invalid
    | Starved => Starved
    end
  end.

(** Recursion bound that no input of this length exhausts. *)
Definition fuel_for (s : bytes) : nat := 2 * length s + 3.

(** A whole document: one value, then only white space. *)
Definition parse (s : bytes) : option Value :=
  match parse_value (fuel_for s) s with
  | Parsed v rest => match skip_space rest with [] => Some v | _ :: _ => None end
  | Invalid | Starved => None
  end.

(** *** Numbers in decimal *)

Fixpoint digits_of_uint (u : Decimal.uint) : bytes :=
  match u with
  | Decimal.Nil => []
  | Decimal.D0 u => "0"%byte :: digits_of_uint u
  | Decimal.D1 u => "1"%byte :: digits_of_uint u
  | Decimal.D2 u => "2"%byte :: digits_of_uint u
  | Decimal.D3 u => "3"%byte :: digits_of_uint u
  | Decimal.D4 u => "4"%byte :: digits_of_uint u
  | Decimal.D5 u => "5"%byte :: digits_of_uint u
  | Decimal.D6 u => "6"%byte :: digits_of_uint u
  | Decimal.D7 u => "7"%byte :: digits_of_uint u
  | Decimal.D8 u => "8"%byte :: digits_of_uint u
  | Decimal.D9 u => "9"%byte :: digits_of_uint u
  end.

Fixpoint uint_of_digits (s : bytes) : option Decimal.uint :=
  match s with
  | [] => Some Decimal.Nil
  | b :: s' =>
    match uint_of_digits s' with
    | None => None
    | Some u =>
      match b with
      | "0"%byte => Some (Decimal.D0 u)
      | "1"%byte => Some (Decimal.D1 u)
      | "2"%byte => Some (Decimal.D2 u)
      | "3"%byte => Some (Decimal.D3 u)
      | "4"%byte => Some (Decimal.D4 u)
      | "5"%byte => Some (Decimal.D5 u)
      | "6"%byte => Some (Decimal.D6 u)
      | "7"%byte => Some (Decimal.D7 u)
      | "8"%byte => Some (Decimal.D8 u)
      | "9"%byte => Some (Decimal.D9 u)
      | _ => None
      end
    end
  end.

(** [strconv.FormatUint(n, 10)] *)
Definition FormatUint (n : N) : bytes := digits_of_uint (N.to_uint n).

(** [strconv.ParseUint(s, 10, 64)] *)
Definition ParseUint (s : bytes) : option N :=
  match s with
  | [] => None
  | _ :: _ =>
    match uint_of_digits s with
    | Some u => let n := N.of_uint u in if N.ltb n (2 ^ 64) then Some n else None
    | None => None
    end
  end.

(** *** The encoder *)

(** The settings of a [json.Encoder]. *)
Record Encoder := mkEncoder {
  indentPrefix : bytes;
  indentValue : bytes;
  escapeHTML : bool
}.

Definition NewEncoder : Encoder := mkEncoder [] [] true.
Definition SetIndent (enc : Encoder) (prefix indent : bytes) : Encoder :=
  mkEncoder prefix indent (escapeHTML enc).
Definition SetEscapeHTML (enc : Encoder) (on : bool) : Encoder :=
  mkEncoder (indentPrefix enc) (indentValue enc) on.

Definition indented (enc : Encoder) : bool :=
  negb (bool_decide (indentPrefix enc = []) && bool_decide (indentValue enc = [])).

(** The text of one byte inside a string literal.  Control characters
    other than the three with a short form are written as [\u00XX]; with
    [escapeHTML] so are the three HTML characters.  (The escapes of U+2028
    and U+2029 and the replacement of ill-formed UTF-8 are not modelled.) *)
Definition escape_byte (html : bool) (b : byte) : bytes :=
  if Byte.eqb b QUOTE || Byte.eqb b BACKSLASH then [BACKSLASH; b]
  else if Byte.eqb b NL then [BACKSLASH; "n"%byte]
  else if Byte.eqb b CR then [BACKSLASH; "r"%byte]
  else if Byte.eqb b HT then [BACKSLASH; "t"%byte]
  else if N.ltb (Byte.to_N b) 32
          || (html && (Byte.eqb b "<"%byte || Byte.eqb b ">"%byte || Byte.eqb b "&"%byte))
  then bs "\u00" ++ [types.hexdigit (Byte.to_N b / 16); types.hexdigit (Byte.to_N b mod 16)]
  else [b].

Definition quote (html : bool) (s : bytes) : bytes :=
  QUOTE :: flat_map (escape_byte html) s ++ [QUOTE].

(** The text of a field value; a reference is written as the string of
    its canonical encoding. *)
Definition encode_value (html : bool) (v : reflect.Value) : bytes :=
  match v with
  | reflect.VString s => quote html s
  | reflect.VUint64 n => FormatUint n
  | reflect.VRef r => quote html (types.String r)
  end.

(** [omitempty] drops an empty string and a zero number. *)
Definition isEmptyValue (v : reflect.Value) : bool :=
  match v with
  | reflect.VString [] => true
  | reflect.VUint64 0%N => true
  | _ => false
  end.

Definition omitted (fv : reflect.StructField * reflect.Value) : bool :=
  reflect.OmitEmpty (fv.1) && isEmptyValue (fv.2).

(** The fields that are written, with their values. *)
Definition emitted (o : reflect.Struct) : list (reflect.StructField * reflect.Value) :=
  List.filter (fun fv => negb (omitted fv))
              (zip (reflect.Fields (reflect.TypeOf o)) (reflect.FieldValues o)).

(** One member of the object, at depth one. *)
Definition encode_member (enc : Encoder) (fv : reflect.StructField * reflect.Value) : bytes :=
  (if indented enc then NL :: indentPrefix enc ++ indentValue enc else [])
  ++ QUOTE :: reflect.Name (fv.1) ++ [QUOTE; COLON]
  ++ (if indented enc then [SP] else [])
  ++ encode_value (escapeHTML enc) (fv.2).

(** [Encoder.Encode(o)] for a struct: the object, then a newline.
    Marshalling the kinds modelled here never fails. *)
Definition Encode (enc : Encoder) (o : reflect.Struct) : Error + bytes :=
  inr match emitted o with
      | [] => [LBRACE; RBRACE; NL]
      | m :: ms =>
        LBRACE :: encode_member enc m
        ++ flat_map (fun m => COMMA :: encode_member enc m) ms
        ++ (if indented enc then NL :: indentPrefix enc else [])
        ++ [RBRACE; NL]
      end.

(** *** The decoder *)

Definition fold_byte (b : byte) : byte :=
  let n := Byte.to_N b in
  if (N.leb 65 n && N.leb n 90)%bool then types.byteN (n + 32) else b.

(** [bytes.EqualFold], on ASCII letters. *)
Definition equalFold (a b : bytes) : bool :=
  bool_decide (fold_byte <$> a = fold_byte <$> b).

(** The field a key is stored into: the one with exactly this name,
    else the first whose name differs only in the case of letters. *)
Definition findField (fs : list reflect.StructField) (key : bytes) : option nat :=
  match list_find (fun f => reflect.Name f = key) fs with
  | Some (i, _) => Some i
  | None => fst <$> list_find (fun f => equalFold (reflect.Name f) key = true) fs
  end.

(** Store a JSON value into a field of kind [k] that holds [old]. *)
Definition literalStore (k : reflect.Kind) (v : Value) (old : reflect.Value)
  : Error + reflect.Value :=
  match v, k with
  | Null, _ => inr old
  | String s, reflect.String => inr (reflect.VString s)
  | String s, reflect.Ref =>
      match types.ParseRef s with
      | Some r => inr (reflect.VRef r)
      | None => inl RefError
      end
  | Number lit, reflect.Uint64 =>
      match ParseUint lit with
      | Some n => inr (reflect.VUint64 n)
      | None => inl UnmarshalTypeError
      end
  | _, reflect.Ref => inl RefError
  | _, _ => inl UnmarshalTypeError
  end.

(** The members of a JSON object are stored in the order of the text; a
    key without field is skipped.  A value of the wrong type is recorded
    in [saved] (the first one is kept) and decoding goes on; an error of a
    reference ends it. *)
Fixpoint object (fs : list reflect.StructField) (ms : list (bytes * Value))
         (vals : list reflect.Value) (saved : option Error)
  : Error + (list reflect.Value * option Error) :=
  match ms with
  | [] => inr (vals, saved)
  | (key, v) :: ms' =>
    match findField fs key with
    | None => object fs ms' vals saved
    | Some i =>
      match fs !! i, vals !! i with
      | Some f, Some old =>
        match literalStore (reflect.FieldKind f) v old with
        | inr new => object fs ms' (<[i:=new]> vals) saved
        | inl RefError => inl RefError
        | inl e => object fs ms' vals (Some (default e saved))
        end
      | _, _ => object fs ms' vals saved
      end
    end
  end.

(** [json.Unmarshal(data, o)] for a pointer [o] to a struct. *)
Definition Unmarshal (data : bytes) (o : reflect.Struct) : Error + reflect.Struct :=
  match parse data with
  | None => inl SyntaxError
  | Some (Object ms) =>
    match object (reflect.Fields (reflect.TypeOf o)) ms (reflect.FieldValues o) None with
    | inl e => inl e
    | inr (_, Some e) => inl e
    | inr (vals, None) => inr (reflect.mkStruct (reflect.TypeOf o) vals)
    end
  | Some Null => inr o
  | Some _ => inl UnmarshalTypeError
  end.

End json.

(** ** Package [schema] *)

Module schema.

(** The errors of the package.  Go builds most of them with [fmt.Errorf];
    the constructors keep what the message is made of. *)
Inductive error :=
| ErrNotSchema                                   (* "not a schema file" *)
| ErrCannotCheck (e : io.error)                  (* "cannot check schema object: %v" *)
| ErrCannotDecode (e : error)                    (* "cannot decode schema object: %v" *)
| ErrTooLarge                                    (* "schema object is too large" *)
| ErrUnsupportedObject (rt : reflect.Type_)      (* "unsupported schema type: %T" *)
| ErrUnsupportedType (typ : bytes)               (* "unsupported schema type: %q" *)
| ErrFailedToEncode (rt : reflect.Type_) (e : json.Error)   (* "failed to encode %T: %v" *)
| ErrIO (e : io.error)                           (* an error of a reader or writer *)
| ErrJSON (e : json.Error)                       (* an error of json.Unmarshal *)
| Panic.                                         (* a run-time panic, not an error value *)

Definition typeField : bytes := bs "@type".
Definition casNS : bytes := bs "cas:".
Definition tab : bytes := bs " ".
Definition magic : bytes := [LBRACE; NL] ++ tab ++ [QUOTE] ++ typeField ++ [QUOTE; COLON].
Definition maxSize : N := 16 * 1024 * 1024.

(** [MagicSize] is a maximal size of a magic prefix of schema blobs. *)
Definition MagicSize : nat := length magic.

(** [Object] is a generic schema object; its concrete types are structs. *)
Definition Object := reflect.Struct.

(** The two maps of the registry, [typesMap] and [typeToName]. *)
Record Registry := mkRegistry {
  typesMap : gmap bytes reflect.Type_;
  typeToName : gmap reflect.Type_ bytes
}.

Definition empty_registry : Registry := mkRegistry ∅ ∅.

Definition registerCAS (o : Object) (reg : Registry) : Registry :=
  let rt := reflect.TypeOf o in
  let name := casNS ++ reflect.TypeName rt in
  mkRegistry (<[name := rt]> (typesMap reg)) (<[rt := name]> (typeToName reg)).

(** [RegisterName] associates a schema object with a given type name. *)
Definition RegisterName (name : bytes) (o : Object) (reg : Registry) : Registry :=
  let rt := reflect.TypeOf o in
  mkRegistry (<[name := rt]> (typesMap reg)) (<[rt := name]> (typeToName reg)).

(** [TypeOf] returns the type of an object. *)
Definition TypeOf (reg : Registry) (o : Object) : error + bytes :=
  let rt := reflect.TypeOf o in
  match typeToName reg !! rt with
  | None => inl (ErrUnsupportedObject rt)
  | Some name => inr name
  end.

(** [MustTypeOf] is the same as [TypeOf] but panics on error. *)
Definition MustTypeOf (reg : Registry) (o : Object) : error + bytes :=
  match TypeOf reg o with
  | inl _ => inl Panic
  | inr typ => inr typ
  end.

(** [NewType] creates a schema object with a specified type. *)
Definition NewType (reg : Registry) (typ : bytes) : error + Object :=
  match typesMap reg !! typ with
  | None => inl (ErrUnsupportedType typ)
  | Some rt => inr (reflect.New rt)
  end.

(** [Encode] writes a schema blob to [w]. *)
Definition Encode (reg : Registry) (w : io.Writer) (o : Object) : io.Writer * option error :=
  match TypeOf reg o with
  | inl err => (w, Some err)
  | inr typ =>
    let buf := magic ++ [SP; QUOTE] in
    let buf := buf ++ typ in
    let buf := buf ++ [QUOTE] in
    let i := length buf in
    let enc := json.NewEncoder in
    let enc := json.SetIndent enc [] tab in
    let enc := json.SetEscapeHTML enc false in
    match json.Encode enc o with
    | inl err => (w, Some (ErrFailedToEncode (reflect.TypeOf o) err))
    | inr out =>
      let p := buf ++ out in
      if decide (i < length p)
      then match io.Write w (<[i := COMMA]> p) with
           | (w', Some e) => (w', Some (ErrIO e))
           | (w', None) => (w', None)
           end
      else (w, Some Panic)
    end
  end.

(** [IsSchema] checks if the buffer is likely to contain an object with
    a CAS schema. *)
Definition IsSchema (p : bytes) : bool :=
  if decide (length p < MagicSize) then false
  else bool_decide (take MagicSize p = magic).

Definition checkSchema (r : io.Reader) : error + io.Reader :=
  let '(res, r) := io.ReadFull r MagicSize in
  match res with
  | inr io.EOF | inr io.ErrUnexpectedEOF => inl ErrNotSchema
  | inr err => inl (ErrCannotCheck err)
  | inl m =>
    if negb (IsSchema m) then inl ErrNotSchema
    else inr (io.MultiReader (io.NewReader m) r)
  end.

(** The anonymous struct [h] of [decodeType], with its one field
    [Type string `json:"@type"`]. *)
Definition header : reflect.Type_ :=
  reflect.mkType [] [reflect.mkField typeField reflect.String false].

Definition header_Type (h : reflect.Struct) : bytes :=
  match reflect.FieldValues h with
  | reflect.VString s :: _ => s
  | _ => []
  end.

(** [decodeType]: the type name and the data read; the last component is
    the reader [r] of the caller, as the read has left it. *)
Definition decodeType (r : io.Reader) : (error + bytes * bytes) * io.Reader :=
  let lr := io.LimitReader r maxSize in
  let '((data, err), lr) := io.ReadAll lr in
  let r := io.lr_R lr in
  match err with
  | Some err => (inl (ErrIO err), r)
  | None =>
    if N.eqb (lenN data) maxSize then (inl ErrTooLarge, r)
    else match json.Unmarshal data (reflect.New header) with
         | inl err => (inl (ErrJSON err), r)
         | inr h => (inr (header_Type h, data), r)
         end
  end.

Definition decode (reg : Registry) (r : io.Reader) : error + Object :=
  match decodeType r with
  | (inl err, _) => inl err
  | (inr (typ, data), _) =>
    match NewType reg typ with
    | inl err => inl err
    | inr obj =>
      match json.Unmarshal data obj with
      | inl err => inl (ErrJSON err)
      | inr obj => inr obj
      end
    end
  end.

(** [DecodeJSON] decodes a JSON config.  It will not validate JSON
    formatting as [Decode] does. *)
Definition DecodeJSON (reg : Registry) (r : io.Reader) : error + Object :=
  match decode reg r with
  | inl err => inl (ErrCannotDecode err)
  | inr obj => inr obj
  end.

(** [Decode] decodes a schema object from a stream.  It will strictly
    validate formatting of the content. *)
Definition Decode (reg : Registry) (r : io.Reader) : error + Object :=
  match checkSchema r with
  | inl err => inl err
  | inr r => DecodeJSON reg r
  end.

(** [DecodeType] decodes the type of an object from the reader. *)
Definition DecodeType (r : io.Reader) : error + bytes :=
  match checkSchema r with
  | inl err => inl err
  | inr r =>
    match decodeType r with
    | (inl err, _) => inl err
    | (inr (typ, _), _) => inr typ
    end
  end.

(** [PeekType] reads a portion of data from [r], reports the type of the
    schema blob that it describes, and returns a new restored reader.
    The reader is [None] for Go's nil: when [checkSchema] fails its nil
    result has been assigned to [r], and [r] is what is returned.  When
    [decodeType] fails its [data] is nil. *)
Definition PeekType (r : io.Reader) : option io.Reader * bytes * option error :=
  match checkSchema r with
  | inl err => (None, [], Some err)
  | inr r =>
    let '(res, r) := decodeType r in
    match res with
    | inl err => (Some (io.MultiReader (io.NewReader []) r), [], Some err)
    | inr (typ, data) => (Some (io.MultiReader (io.NewReader data) r), typ, None)
    end
  end.

(** *** [pipeline.go] *)

(** [TransformOp], with the keys of its [json] tags. *)
Definition TransformOp : reflect.Type_ :=
  reflect.mkType (bs "TransformOp")
    [reflect.mkField (bs "src") reflect.Ref false;
     reflect.mkField (bs "op") reflect.Ref false;
     reflect.mkField (bs "dst") reflect.Ref false].

Definition mkTransformOp (Src Op Dst : types.Ref) : Object :=
  reflect.mkStruct TransformOp [reflect.VRef Src; reflect.VRef Op; reflect.VRef Dst].

(** [(t *TransformOp) References()] *)
Definition References (t : Object) : list types.Ref :=
  match reflect.FieldValues t with
  | [reflect.VRef Src; reflect.VRef Op; reflect.VRef Dst] => [Src; Op; Dst]
  | _ => []
  end.

(** [init] of [pipeline.go] *)
Definition init (reg : Registry) : Registry :=
  registerCAS (reflect.New TransformOp) reg.

End schema.

(** ** Packages [syscall] and [os]: error values *)

Module syscall.

(** [syscall.Errno].  The error numbers the sources name, and [Eother]
    for any other one. *)
Inductive Errno :=
| EEXIST
| ENOTEMPTY
| EISDIR
| EOPNOTSUPP
| Eother (code : N).

#[global] Instance Errno_eq_decision : EqDecision Errno.
Proof. solve_decision. Defined.

End syscall.

Module os.

Inductive error :=
| ErrClosed                              (* os.ErrClosed *)
| ErrExist                               (* os.ErrExist *)
| Errno (e : syscall.Errno)              (* an error number of a system call *)
| Read (e : io.error)                    (* an error of reading a file *)
| Other (msg : bytes)                    (* any other error value *)
| Errorf (format : bytes) (e : error).   (* fmt.Errorf(format, err) *)

#[global] Instance error_eq_decision : EqDecision error.
Proof. solve_decision. Defined.

(** [os.IsExist] *)
Definition IsExist (err : option error) : bool :=
  match err with
  | Some ErrExist => true
  | Some (Errno syscall.EEXIST) | Some (Errno syscall.ENOTEMPTY) => true
  | _ => false
  end.

(** A file: its bytes and its permission bits. *)
Record File := mkFile { content : bytes; perm : Z }.

#[global] Instance File_eq_decision : EqDecision File.
Proof. solve_decision. Defined.

(** [File.Write] on a file that is only ever written from its start to
    its end, as a temporary file is: the bytes go to the end of the file.
    Without a [fault] all of [p] is written; a fault after [n] bytes
    leaves these in the file and gives the error. *)
Definition File_Write (fault : option (nat * error)) (file : File) (p : bytes)
  : (Z * option error) * File :=
  match fault with
  | None => ((Z.of_nat (length p), None), mkFile (content file ++ p) (perm file))
  | Some (n, e) =>
    ((Z.of_nat (length (take n p)), Some e), mkFile (content file ++ take n p) (perm file))
  end.

End os.

(** ** Package [storage/local], Linux *)

Module local.

Definition roPerm : Z := 292.          (* 0444 *)

(** The open flags, as on linux/amd64. *)
Definition O_WRONLY : Z := 1.
Definition O_RDWR : Z := 2.
Definition O_CLOEXEC : Z := 524288.    (* 0x80000 *)
Definition O_TMPFILE : Z := 4259840.   (* 0x410000 *)

(** The blob directory: its entries in the order of creation, a name and
    the file it is linked to. *)
Abbreviation Dir := (list (bytes * os.File)).

Definition exists_name (name : bytes) (dir : Dir) : bool :=
  bool_decide (name ∈ dir.*1).

(** Number of entries of the directory with this name. *)
Definition count_name (name : bytes) (dir : Dir) : nat :=
  length (List.filter (fun e => bool_decide (e.1 = name)) dir).

(** [Storage], as far as [Commit] uses it. *)
Record Storage := mkStorage { blobDir : Dir }.

(** [unix.Linkat] of an open file to [name] in [dir]: a [fault] of the
    system (an error number other than the named ones), [EEXIST] if the
    name is taken, else the new entry. *)
Definition Linkat (fault : option N) (dir : Dir) (name : bytes) (file : os.File)
  : Dir * option syscall.Errno :=
  match fault with
  | Some code => (dir, Some (syscall.Eother code))
  | None =>
    if exists_name name dir then (dir, Some syscall.EEXIST)
    else (dir ++ [(name, file)], None)
  end.

Definition linkFile (fault : option N) (dir : Dir) (name : bytes) (file : os.File)
  : Dir * option os.error :=
  let '(dir, err) := Linkat fault dir name file in
  match err with
  | Some syscall.EEXIST => (dir, Some os.ErrExist)
  | Some e => (dir, Some (os.Errno e))
  | None => (dir, None)
  end.

(** What the system and the functions of the repository that are not in
    the sources at hand answer during one [Commit]. *)
Record CommitEnv := mkCommitEnv {
  SaveRefFile : option os.error;
  Fchmod : option syscall.Errno;
  Linkat_fault : option N;
  addNotIndexed : option os.error;
  Close : option os.error
}.

(** [linuxTmpFile]; [f = None] is Go's nil. *)
Record linuxTmpFile := mkTmp { f : option os.File }.

(** [Commit], on the anonymous temporary file [t].  Modelled from the spec:
    [SaveRefFile] records an identity-memoization entry, a side record
    that is no part of the blob directory; [addNotIndexed] is taken to
    leave the blob directory alone as well. *)
Definition Commit (env : CommitEnv) (s : Storage) (t : linuxTmpFile) (ref : types.Ref)
  : option os.error * Storage * linuxTmpFile :=
  match f t with
  | None => (Some os.ErrClosed, s, t)
  | Some tmp =>
    let t := mkTmp None in
    match SaveRefFile env with
    | Some err => (Some (os.Errorf (bs "save ref: %v") err), s, t)
    | None =>
      match Fchmod env with
      | Some err => (Some (os.Errorf (bs "fchmod: %v") (os.Errno err)), s, t)
      | None =>
        let tmp := os.mkFile (os.content tmp) roPerm in
        let '(dir, err) := linkFile (Linkat_fault env) (blobDir s) (types.String ref) tmp in
        let s := mkStorage dir in
        if os.IsExist err then (None, s, t)
        else match err with
             | Some err => (Some (os.Errorf (bs "linkat: %v (%T)") err), s, t)
             | None =>
               match addNotIndexed env with
               | Some err => (Some err, s, t)
               | None => (Close env, s, t)
               end
             end
      end
    end
  end.

(** *** The other methods of [linuxTmpFile]

    [answer] is what the call on the open file gives. *)

Definition linuxTmpFile_File (t : linuxTmpFile) : option os.File := f t.

Definition linuxTmpFile_Read (answer : bytes * option os.error) (t : linuxTmpFile)
  : bytes * option os.error :=
  match f t with
  | None => ([], Some os.ErrClosed)
  | Some _ => answer
  end.

Definition linuxTmpFile_Write (fault : option (nat * os.error)) (t : linuxTmpFile) (p : bytes)
  : (Z * option os.error) * linuxTmpFile :=
  match f t with
  | None => ((0%Z, Some os.ErrClosed), t)
  | Some file =>
    let '(res, file) := os.File_Write fault file p in
    (res, mkTmp (Some file))
  end.

(** The error of closing the file is dropped. *)
Definition linuxTmpFile_Close (t : linuxTmpFile) : option os.error * linuxTmpFile :=
  match f t with
  | None => (None, t)
  | Some _ => (None, mkTmp None)
  end.

Definition linuxTmpFile_SetWriteDeadline (answer : option os.error) (t : linuxTmpFile)
  : option os.error :=
  match f t with
  | None => Some os.ErrClosed
  | Some _ => answer
  end.

(** *** [tmpFile] *)

(** What [unix.Open] answers. *)
Inductive OpenResult :=
| Opened (fd : Z)
| OpenErr (e : syscall.Errno).

(** The system calls and calls to [tmpFileGen] a process has made. *)
Inductive event :=
| EvOpen (flags : Z)       (* unix.Open(s.dir, flags, 0600) *)
| EvTmpFileGen.            (* s.tmpFileGen() *)

#[global] Instance event_eq_decision : EqDecision event.
Proof. solve_decision. Defined.

(** The state of the process: the package variable [noTmpFile] and the
    calls made so far. *)
Record Process := mkProcess { noTmpFile : Z; trace : list event }.

(** What [tmpFile] returns: the anonymous file, what [tmpFileGen] returns
    (its temporary file or its error, handed on as it is), or the error
    that [tmpFile] builds itself. *)
Inductive tempFile :=
| Anonymous (fd : Z)                       (* &linuxTmpFile{s: s, f: f} *)
| Generic                                  (* return s.tmpFileGen() *)
| Failed (err : os.error).                 (* fmt.Errorf("cannot create temp file: %v", err) *)

Definition tmpFileGen (p : Process) : tempFile * Process :=
  (Generic, mkProcess (noTmpFile p) (trace p ++ [EvTmpFileGen])).

Definition unix_Open (answer : OpenResult) (flags : Z) (p : Process) : OpenResult * Process :=
  (answer, mkProcess (noTmpFile p) (trace p ++ [EvOpen flags])).

(** [atomic.LoadInt32(&noTmpFile)] and [atomic.StoreInt32(&noTmpFile, v)] *)
Definition LoadInt32 (p : Process) : Z := noTmpFile p.
Definition StoreInt32 (v : Z) (p : Process) : Process := mkProcess v (trace p).

Definition tmpFile (answer : OpenResult) (rw : bool) (p : Process) : tempFile * Process :=
  if negb (Z.eqb (LoadInt32 p) 0) then tmpFileGen p
  else
    let flags := Z.lor O_TMPFILE O_CLOEXEC in
    let flags := if rw then Z.lor flags O_RDWR else Z.lor flags O_WRONLY in
    let '(res, p) := unix_Open answer flags p in
    match res with
    | OpenErr syscall.EISDIR =>
        (* system doesn't understand this flag; disable permanently *)
        let p := StoreInt32 1 p in
        tmpFileGen p
    | OpenErr syscall.EOPNOTSUPP => tmpFileGen p
    | OpenErr err => (Failed (os.Errorf (bs "cannot create temp file: %v") (os.Errno err)), p)
    | Opened fd => (Anonymous fd, p)
    end.

(** A run of calls to [tmpFile], one after the other. *)
Fixpoint tmpFiles (calls : list (OpenResult * bool)) (p : Process) : list tempFile * Process :=
  match calls with
  | [] => ([], p)
  | (answer, rw) :: calls =>
    let '(t, p) := tmpFile answer rw p in
    let '(ts, p) := tmpFiles calls p in
    (t :: ts, p)
  end.

(** *** Concurrent callers of [tmpFile]

    Several goroutines run [tmpFile] on the one package variable.  A call
    is cut at its accesses to shared state: the atomic load, the system
    call, the atomic store and the call to [tmpFileGen] are one step
    each, and the steps of different callers interleave freely. *)

(** Where a caller stands. *)
Inductive pc :=
| AtLoad (rw : bool)      (* before atomic.LoadInt32(&noTmpFile) *)
| AtOpen (rw : bool)      (* the load gave 0: before unix.Open *)
| AtStore                 (* Open gave EISDIR: before atomic.StoreInt32 *)
| AtGen                   (* before s.tmpFileGen() *)
| Returned (t : tempFile).

#[global] Instance tempFile_eq_decision : EqDecision tempFile.
Proof. solve_decision. Defined.

#[global] Instance pc_eq_decision : EqDecision pc.
Proof. solve_decision. Defined.

(** One step of a caller; [answer] is what [unix.Open] answers if this
    step is the system call. *)
Definition caller_step (answer : OpenResult) (c : pc) (p : Process) : pc * Process :=
  match c with
  | AtLoad rw =>
    if negb (Z.eqb (LoadInt32 p) 0) then (AtGen, p) else (AtOpen rw, p)
  | AtOpen rw =>
    let flags := Z.lor O_TMPFILE O_CLOEXEC in
    let flags := if rw then Z.lor flags O_RDWR else Z.lor flags O_WRONLY in
    let '(res, p) := unix_Open answer flags p in
    match res with
    | OpenErr syscall.EISDIR => (AtStore, p)
    | OpenErr syscall.EOPNOTSUPP => (AtGen, p)
    | OpenErr err =>
        (Returned (Failed (os.Errorf (bs "cannot create temp file: %v") (os.Errno err))), p)
    | Opened fd => (Returned (Anonymous fd), p)
    end
  | AtStore => (AtGen, StoreInt32 1 p)
  | AtGen => let '(t, p) := tmpFileGen p in (Returned t, p)
  | Returned t => (Returned t, p)
  end.

(** A caller run alone until it returns. *)
Fixpoint run_caller (n : nat) (answer : OpenResult) (c : pc) (p : Process) : pc * Process :=
  match n with
  | O => (c, p)
  | S n => let '(c, p) := caller_step answer c p in run_caller n answer c p
  end.





End local.

(** ** Packages [path/filepath] and [strings] *)

Module filepath.

(** The loop of [filepath.Ext]: from the last byte of the path back to the
    first separator; [rev] holds the bytes still to visit, last first, and
    [tail] those visited. *)
Fixpoint Ext_loop (rev tail : bytes) : bytes :=
  match rev with
  | [] => []
  | c :: rev' =>
    if Byte.eqb c "/"%byte then []
    else if Byte.eqb c "."%byte then c :: tail
    else Ext_loop rev' (c :: tail)
  end.

(** [filepath.Ext]: the suffix beginning at the final dot in the final
    element of [path]; it is empty if there is no dot. *)
Definition Ext (path : bytes) : bytes := Ext_loop (reverse path) [].

End filepath.

Module strings.

(** [strings.HasPrefix] *)
Definition HasPrefix (s prefix : bytes) : bool :=
  bool_decide (length prefix <= length s) && bool_decide (take (length prefix) s = prefix).

(** [strings.TrimPrefix] *)
Definition TrimPrefix (s prefix : bytes) : bytes :=
  if HasPrefix s prefix then drop (length prefix) s else s.

End strings.

(** ** Package [cas]: [HashWith], [Hash] and the hooks of [ext.go] *)

Module cas.

(** [os.FileInfo], as far as it matters here. *)
Record FileInfo := mkFileInfo { Size : Z; ModTime : Z }.

(** What the system and the functions of the repository that are not in
    the sources at hand answer during one [HashWith]: [os.Open] gives the
    file as a stream, [StatFile] looks the file up in the side record of
    known files, [SaveRefFile] records it there. *)
Record Env := mkEnv {
  Open : bytes -> os.error + io.Reader;
  StatFile : bytes -> os.error + types.SizedRef;
  SaveRefFile : bytes -> option FileInfo -> types.Ref -> option os.error
}.

(** [uint64(n)] *)
Definition uint64 (n : Z) : Z := n mod 2 ^ 64.

Section HashWith.

(** The content hash: [types.NewRef().WithHash(h)] after the bytes
    were written to [h]. *)
Variable Sum : bytes -> types.Ref.

(** [HashWith]; [log] is what [log.Println] has printed. *)
Definition HashWith (env : Env) (log : list os.error)
           (path : bytes) (info : option FileInfo) (force : bool)
  : (os.error + types.SizedRef) * list os.error :=
  match Open env path with
  | inl err => (inl err, log)
  | inr f =>
    let hit :=
      if negb force then
        match StatFile env path with
        | inr sr => if negb (types.Zero (types.SizedRef_Ref sr)) then Some sr else None
        | inl _ => None
        end
      else None in
    match hit with
    | Some sr => (inr sr, log)
    | None =>
      let '(h, err) := io.Copy f in
      let n := Z.of_nat (length h) in
      match err with
      | Some err => (inl (os.Read err), log)
      | None =>
        let ref := Sum h in
        let log :=
          match SaveRefFile env path info ref with
          | Some err => log ++ [err]
          | None => log
          end in
        (inr (types.mkSizedRef ref (uint64 n)), log)
      end
    end
  end.

(** [Hash]; [Stat] is what [os.Stat] answers. *)
Definition Hash (Stat : bytes -> os.error + FileInfo) (env : Env) (log : list os.error)
           (path : bytes)
  : (os.error + types.SizedRef) * list os.error :=
  match Stat path with
  | inl err => (inl err, log)
  | inr st => HashWith env log path (Some st) false
  end.

End HashWith.

(** *** [ext.go] *)

(** [schema.Compressed], with the fields that [storeIndexByExt] sets. *)
Record Compressed := mkCompressed {
  Compressed_Arch : types.SizedRef;
  Compressed_Ref : types.SizedRef;
  Compressed_Algo : bytes
}.

Section ext.

(** The storage, and its two methods that are not among the sources at
    hand: [indexGZIP] gives a blob writer; [StoreSchema] stores a schema
    object and answers its reference, or an error. *)
Variable Storage : Type.
Variable BlobWriter : Type.
Variable indexGZIP : Storage -> BlobWriter.
Variable StoreSchema : Storage -> Compressed -> (os.error + types.SizedRef) * Storage.

(** [indexFileByExt]; [None] is Go's nil. *)
Definition indexFileByExt (s : Storage) (name : bytes) : option BlobWriter :=
  let ext := filepath.Ext name in
  if decide (ext = bs ".gz") then Some (indexGZIP s)
  else None.

Definition storeIndexByExt (s : Storage) (name : bytes) (orig ref : types.SizedRef)
  : (os.error + types.SizedRef) * Storage :=
  let ext := filepath.Ext name in
  if decide (ext = bs ".gz") then
    let m := mkCompressed orig ref (bs "gzip") in
    StoreSchema s m
  else (inr (types.mkSizedRef types.zero 0), s).

End ext.

End cas.

(** ** Command [cas init] *)

Module main.

(** [storage.Config]: the three configurations the commands build. *)
Inductive Config :=
| local_Config (Dir : bytes)
| httpstor_Config (URL : bytes)
| gcs_Config (Bucket : bytes).

(** [casInitE], without the context and the flags, which no command here
    reads. *)
Definition casInitE := list bytes -> os.error + Config.

(** The function of the command [init]. *)
Definition init_local : casInitE :=
  fun args => inr (local_Config (bs ".")).

(** The function of the command [init gcs]. *)
Definition init_gcs : casInitE :=
  fun args =>
    if negb (length args =? 1) then inl (os.Other (bs "expected a GCS bucket"))
    else
      let bucket := strings.TrimPrefix (nth 0 args []) (bs "gs://") in
      inr (gcs_Config bucket).

Section init.

(** The state [cas.Init] works on, [cas.Init] itself with the storage
    configuration it is given, [cas.DefaultDir], and the error of
    [url.Parse], if any. *)
Variable State : Type.
Variable cas_Init : bytes -> Config -> State -> option os.error * State.
Variable casDir : bytes.
Variable url_Parse : bytes -> option os.error.

Definition casInitCmd (fnc : casInitE) (args : list bytes) (st : State)
  : option os.error * State :=
  match fnc args with
  | inl err => (Some err, st)
  | inr sconf => cas_Init casDir sconf st
  end.

(** The function of the command [init http]. *)
Definition init_http : casInitE :=
  fun args =>
    if negb (length args =? 1) then inl (os.Other (bs "expected a URL of the server"))
    else
      let addr := nth 0 args [] in
      match url_Parse addr with
      | Some err => inl err
      | None => inr (httpstor_Config addr)
      end.

End init.

End main.

(* ===================================================================== *)
(** * Part I, continued: the vocabulary of the statements and the examples  *)
(* ===================================================================== *)

(** A stream whose magic cannot be read in full, or is not the magic. *)
Definition not_a_schema (r : io.Reader) : Prop :=
  (length (io.pending r) < schema.MagicSize
   /\ (io.final r = io.EOF \/ io.final r = io.ErrUnexpectedEOF))
  \/ (schema.MagicSize <= length (io.pending r)
      /\ take schema.MagicSize (io.pending r) <> schema.magic).

(** A piece of JSON text in quotes. *)
Definition quoted (s : string) : bytes := QUOTE :: bs s ++ [QUOTE].

(** The stream of the scenario: valid JSON with the type first, but
    without the line break and indentation of the magic. *)
Definition compact_pin : io.Reader :=
  io.mkReader
    ([LBRACE] ++ quoted "@type" ++ [COLON] ++ quoted "cas:Pin" ++ [COMMA]
     ++ quoted "id" ++ [COLON] ++ quoted "x" ++ [RBRACE])
    io.EOF.

(** A stream of the magic and 16 MiB of spaces. *)
Definition oversized : io.Reader :=
  io.mkReader (schema.magic ++ replicate (N.to_nat schema.maxSize) SP) io.EOF.

(** The bytes of [p] before its double quote number [n], counting from 0. *)
Fixpoint before_quote (n : nat) (p : bytes) : bytes :=
  match p with
  | [] => []
  | b :: p' =>
    if Byte.eqb b QUOTE
    then match n with O => [] | S n' => b :: before_quote n' p' end
    else b :: before_quote n p'
  end.

(** The bytes before the opening quote of the value of [@type]: the key has
    the quotes 0 and 1, the value opens with quote 2. *)
Definition before_type_value (p : bytes) : bytes := before_quote 2 p.

(** What [Encode] writes to a fresh buffer, if it succeeds. *)
Definition encoded (reg : schema.Registry) (o : schema.Object) : option bytes :=
  match schema.Encode reg io.Buffer o with
  | (w, None) => Some (io.written w)
  | (_, Some _) => None
  end.

(** A transform record. *)
Definition an_op : schema.Object :=
  schema.mkTransformOp (types.mkRef (replicate 32 x0a))
                       (types.mkRef (replicate 32 x0b))
                       (types.mkRef (replicate 32 x0c)).

(** A directory holds a name at most once. *)
Definition wf_dir (dir : local.Dir) : Prop := NoDup dir.*1.

(** A staged temporary file with the content [c]. *)
Definition staged (c : bytes) : local.linuxTmpFile :=
  local.mkTmp (Some (os.mkFile c 384)).

(** An environment in which every step succeeds. *)
Definition calm : local.CommitEnv := local.mkCommitEnv None None None None None.

(** A toy content hash for the examples: the content, cut or padded to
    the width of a digest. *)
Definition toy_hash (c : bytes) : types.Ref :=
  types.mkRef (take types.Size (c ++ replicate types.Size x00)).

(** An environment in which [addNotIndexed] fails. *)
Definition index_fails : local.CommitEnv :=
  local.mkCommitEnv None None None (Some (os.Other (bs "index"))) None.

(** Number of calls to [unix.Open] among the calls made. *)
Definition opens_made (tr : list local.event) : nat :=
  length (List.filter (fun e => match e with local.EvOpen _ => true | _ => false end) tr).



(** [StatFile] does not know the file: it fails, or its reference is
    the zero one. *)
Definition stat_miss (env : cas.Env) (path : bytes) : Prop :=
  forall sr, cas.StatFile env path = inr sr -> types.Zero (types.SizedRef_Ref sr) = true.

(** A system with one file, whose [StatFile] and [SaveRefFile] fail. *)
Definition one_file : cas.Env :=
  cas.mkEnv (fun path => inr (io.mkReader (bs "content") io.EOF))
            (fun path => inl (os.Other (bs "no record")))
            (fun path info ref => Some (os.Other (bs "read-only file system"))).

(** The claim as it is stated: [PeekType] returns a reader, and [Decode]
    on it gives what [Decode] gives on the stream itself. *)
Definition peek_restores (reg : schema.Registry) (r : io.Reader) : Prop :=
  exists r' typ err,
    schema.PeekType r = (Some r', typ, err) /\ schema.Decode reg r' = schema.Decode reg r.

(** The magic and spaces, 16 MiB in all. *)
Definition padding : bytes :=
  schema.magic ++ replicate (N.to_nat schema.maxSize - schema.MagicSize) SP.

(** A stream with the magic that is no JSON document. *)
Definition broken_blob : io.Reader := io.mkReader (schema.magic ++ bs " x") io.EOF.

(** A byte that stands for itself inside a string literal. *)
Definition plain_byte (b : byte) : bool :=
  N.leb 32 (Byte.to_N b) && N.ltb (Byte.to_N b) 128
  && negb (Byte.eqb b QUOTE) && negb (Byte.eqb b BACKSLASH).

(** Text of plain bytes: it is written and read as it is. *)
Definition plain (s : bytes) : Prop := Forall (fun b => plain_byte b = true) s.

(** ASCII text: the part of Go's strings this model writes as Go does. *)
Definition ascii_text (s : bytes) : Prop :=
  Forall (fun b => N.ltb (Byte.to_N b) 128 = true) s.

#[global] Instance plain_dec s : Decision (plain s).
Proof. unfold plain. apply _. Defined.

#[global] Instance ascii_text_dec s : Decision (ascii_text s).
Proof. unfold ascii_text. apply _. Defined.

(** A decimal digit. *)
Definition digit (b : byte) : Prop := json.is_digit b = true.

(** What follows a value inside an object that the encoder writes. *)
Definition delimited (rest : bytes) : Prop :=
  exists d rest', rest = d :: rest' /\ (d = COMMA \/ d = NL).

(** The encoder as [Encode] sets it up. *)
Definition enc0 : json.Encoder := json.mkEncoder [] schema.tab false.

(** A member of an indented object: its key, and the text of its value. *)
Definition member_text (m : bytes * bytes) : bytes :=
  [NL; SP; QUOTE] ++ m.1 ++ [QUOTE; COLON; SP] ++ m.2.

Definition members_text (m : bytes * bytes) (ms : list (bytes * bytes)) : bytes :=
  member_text m ++ flat_map (fun m => COMMA :: member_text m) ms.

(** [txt] is read as the value [v], whatever delimiter follows. *)
Definition reads_as (txt : bytes) (v : json.Value) : Prop :=
  forall fuel rest,
    fuel <> 0 -> delimited rest ->
    json.parse_value fuel (txt ++ rest) = json.Parsed v rest.

(** The JSON value that is written for the value of a field. *)
Definition json_of (v : reflect.Value) : json.Value :=
  match v with
  | reflect.VString s => json.String s
  | reflect.VUint64 n => json.Number (json.FormatUint n)
  | reflect.VRef r => json.String (types.String r)
  end.

(** The members of the blob of [o]: the type name first, then the fields
    that are written; each with its key, its text and its value. *)
Definition type_member (typ : bytes) : bytes * bytes * json.Value :=
  (schema.typeField, QUOTE :: typ ++ [QUOTE], json.String typ).

Definition field_member (fv : reflect.StructField * reflect.Value)
  : bytes * bytes * json.Value :=
  (reflect.Name fv.1, json.encode_value false fv.2, json_of fv.2).

(** The blob of an object with the type name [typ] whose written fields
    are [fvs]. *)
Definition blob_text (typ : bytes) (fvs : list (reflect.StructField * reflect.Value)) : bytes :=
  LBRACE :: members_text (type_member typ).1 (fst <$> (field_member <$> fvs))
  ++ [NL; RBRACE; NL].

(** The values of the fields of [reflect.New]. *)
Definition zeros (fs : list reflect.StructField) : list reflect.Value :=
  (fun f => reflect.Zero (reflect.FieldKind f)) <$> fs.

(** The fields that [omitempty] does not drop. *)
Definition written (fvs : list (reflect.StructField * reflect.Value))
  : list (reflect.StructField * reflect.Value) :=
  List.filter (fun fv => negb (json.omitted fv)) fvs.

(** A struct type that the schema layer can carry: no two fields share a
    key, and every key is plain text that is not [@type] in any case of
    letters. *)
Definition wf_type (rt : reflect.Type_) : Prop :=
  NoDup (reflect.Name <$> reflect.Fields rt)
  /\ Forall (fun f => plain (reflect.Name f)
                      /\ json.equalFold (reflect.Name f) schema.typeField = false)
            (reflect.Fields rt).

(** A value of a Go struct: every field holds a value of its kind; the
    strings are ASCII text. *)
Definition wf_object (o : schema.Object) : Prop :=
  Forall2 reflect.has_kind (reflect.Fields (reflect.TypeOf o)) (reflect.FieldValues o)
  /\ Forall (fun v => match v with reflect.VString s => ascii_text s | _ => True end)
            (reflect.FieldValues o).

(** The type [rt] is registered under a name of plain text, and this name
    leads back to [rt]. *)
Definition registered (reg : schema.Registry) (rt : reflect.Type_) : Prop :=
  exists name,
    schema.typeToName reg !! rt = Some name
    /\ schema.typesMap reg !! name = Some rt
    /\ plain name.


(** A type with one string field, registered by [registerCAS]. *)
Definition Note : reflect.Type_ :=
  reflect.mkType (bs "Note") [reflect.mkField (bs "text") reflect.String false].



(** A type without fields. *)
Definition Marker : reflect.Type_ := reflect.mkType (bs "Marker") [].

(** *** Further vocabulary *)

(** Every type that has a name is the type its name leads to. *)
Definition consistent (reg : schema.Registry) : Prop :=
  forall rt name,
    schema.typeToName reg !! rt = Some name -> schema.typesMap reg !! name = Some rt.

(** What [Encode] writes for an object without written fields: the comma
    stands where the encoder had put the opening brace. *)
Definition bare_text (typ : bytes) : bytes :=
  schema.magic ++ [SP; QUOTE] ++ typ ++ [QUOTE; COMMA; RBRACE; NL].

(** The blob of [an_op]. *)
Definition op_blob : bytes :=
  default [] (encoded (schema.init schema.empty_registry) an_op).

(** A stream that breaks after its first five bytes. *)
Definition torn : io.Reader := io.mkReader (take 5 schema.magic) (io.Failure 5).

(** The blob of [an_op] on a stream that ends with a failure. *)
Definition failing_blob : io.Reader := io.mkReader op_blob (io.Failure 5).

(** A run of calls to [Write] on a temporary file, none of which fails. *)
Fixpoint Writes (ps : list bytes) (t : local.linuxTmpFile) : local.linuxTmpFile :=
  match ps with
  | [] => t
  | p :: ps => Writes ps (local.linuxTmpFile_Write None t p).2
  end.

(** A run of calls to [Commit], each with its temporary file. *)
Fixpoint Commits (cs : list (local.CommitEnv * local.linuxTmpFile * types.Ref))
         (s : local.Storage) : local.Storage :=
  match cs with
  | [] => s
  | (env, t, ref) :: cs => Commits cs (local.Commit env s t ref).1.2
  end.

(** A handle that [Close] or [Commit] has been called on. *)
Definition used_up (t' : local.linuxTmpFile) : Prop :=
  (exists t, t' = (local.linuxTmpFile_Close t).2)
  \/ (exists env s t ref, t' = (local.Commit env s t ref).2).

(** An environment in which the steps after the link fail. *)
Definition late_failures : local.CommitEnv :=
  local.mkCommitEnv None None None (Some (os.Other (bs "index"))) (Some (os.Other (bs "close"))).

(** The flags of the call to [unix.Open]. *)
Definition open_flags (rw : bool) : Z :=
  Z.lor (Z.lor local.O_TMPFILE local.O_CLOEXEC) (if rw then local.O_RDWR else local.O_WRONLY).

(** An error number that [tmpFile] gives no meaning to. *)
Definition plain_errno (e : syscall.Errno) : Prop :=
  e <> syscall.EISDIR /\ e <> syscall.EOPNOTSUPP.

(** A system whose [StatFile] knows the file, which cannot be read to its
    end. *)
Definition known_file : cas.Env :=
  cas.mkEnv (fun path => inr (io.mkReader (bs "con") (io.Failure 5)))
            (fun path => inr (types.mkSizedRef (toy_hash (bs "content")) 7))
            (fun path info ref => Some (os.Other (bs "read-only file system"))).

(** An [os.Stat] that finds every file. *)
Definition any_stat (path : bytes) : os.error + cas.FileInfo := inr (cas.mkFileInfo 7 0).






(* ===================================================================== *)
(** * Part II: lemmas and theorems                                         *)
(* ===================================================================== *)

(** ** Slices *)

Section slices.
Context {A : Type}.
Implicit Types (l : list A) (n : N).

Lemma takeN_take n l : takeN n l = take (N.to_nat n) l.
Proof.
  revert n. induction l as [|x l IH]; intros n; simpl.
  - by rewrite take_nil.
  - destruct (N.eqb_spec n 0) as [->|Hn]; [done|].
    rewrite IH. replace (N.to_nat n) with (S (N.to_nat (N.pred n))) by lia. done.
Qed.

Lemma dropN_drop n l : dropN n l = drop (N.to_nat n) l.
Proof.
  revert n. induction l as [|x l IH]; intros n; simpl.
  - by rewrite drop_nil.
  - destruct (N.eqb_spec n 0) as [->|Hn]; [done|].
    rewrite IH. replace (N.to_nat n) with (S (N.to_nat (N.pred n))) by lia. done.
Qed.

Lemma lenN_takeN n l : lenN (takeN n l) = N.min n (lenN l).
Proof. unfold lenN. rewrite takeN_take, length_take. lia. Qed.

Lemma takeN_all n l : (lenN l <= n)%N -> takeN n l = l.
Proof. unfold lenN. intros H. rewrite takeN_take. apply take_ge. lia. Qed.

Lemma dropN_all n l : (lenN l <= n)%N -> dropN n l = [].
Proof. unfold lenN. intros H. rewrite dropN_drop. apply drop_ge. lia. Qed.

Lemma lenN_app l1 l2 : lenN (l1 ++ l2) = (lenN l1 + lenN l2)%N.
Proof. unfold lenN. rewrite length_app. lia. Qed.

End slices.

(** ** The magic prefix *)

Lemma MagicSize_eq : schema.MagicSize = 11.
Proof. reflexivity. Qed.

Lemma length_magic : length schema.magic = schema.MagicSize.
Proof. reflexivity. Qed.

Lemma IsSchema_true p :
  schema.IsSchema p = true <->
  schema.MagicSize <= length p /\ take schema.MagicSize p = schema.magic.
Proof.
  unfold schema.IsSchema. destruct (decide (length p < schema.MagicSize)) as [Hlt|Hge].
  - split; [done|]. intros [? _]. lia.
  - rewrite bool_decide_eq_true. split; [intros ->; split; [lia|done] | tauto].
Qed.

Lemma IsSchema_magic_app p : schema.IsSchema (schema.magic ++ p) = true.
Proof.
  apply IsSchema_true. split.
  - rewrite length_app, length_magic. lia.
  - by rewrite take_app_length'.
Qed.

Lemma IsSchema_take p :
  schema.MagicSize <= length p ->
  schema.IsSchema (take schema.MagicSize p) = schema.IsSchema p.
Proof.
  intros Hp. apply eq_true_iff_eq. rewrite !IsSchema_true.
  rewrite length_take, take_take. split; intros [? ?]; split; try done; lia.
Qed.

(** C6. [IsSchema p] is true exactly when [p] has at least [MagicSize] bytes
    and its first [MagicSize] bytes are the bytes of [magic]; in particular
    it is false for every [p] shorter than [MagicSize]. *)
Theorem IsSchema_spec (p : bytes) :
  (schema.IsSchema p = true <->
   schema.MagicSize <= length p /\ take schema.MagicSize p = schema.magic)
  /\ (length p < schema.MagicSize -> schema.IsSchema p = false).
Proof.
  split; [apply IsSchema_true|].
  intros Hlt. unfold schema.IsSchema. by rewrite decide_True.
Qed.

Lemma IsSchema_spec_witness :
  (schema.IsSchema (bs "{}") = true <->
   schema.MagicSize <= length (bs "{}") /\ take schema.MagicSize (bs "{}") = schema.magic)
  /\ (length (bs "{}") < schema.MagicSize -> schema.IsSchema (bs "{}") = false).
Proof. apply (IsSchema_spec (bs "{}")). Defined.

(** ** [checkSchema] *)

(** The reader that [checkSchema] returns delivers the stream it was given. *)
Lemma checkSchema_ok r :
  schema.IsSchema (io.pending r) = true -> schema.checkSchema r = inr r.
Proof.
  intros [Hlen Hm]%IsSchema_true. unfold schema.checkSchema, io.ReadFull.
  rewrite decide_True by done. rewrite IsSchema_take, (proj2 (IsSchema_true _)) by done.
  simpl. unfold io.MultiReader. simpl. rewrite take_drop. by destruct r.
Qed.

Lemma checkSchema_inr r r' :
  schema.checkSchema r = inr r' -> schema.IsSchema (io.pending r) = true /\ r' = r.
Proof.
  intros H. destruct (schema.IsSchema (io.pending r)) eqn:Hs.
  - rewrite checkSchema_ok in H by done. by inversion H.
  - exfalso. revert H. unfold schema.checkSchema, io.ReadFull.
    destruct (decide (schema.MagicSize <= length (io.pending r))) as [Hle|Hgt].
    + rewrite IsSchema_take, Hs by done. done.
    + destruct (io.pending r), (io.final r); done.
Qed.

Lemma checkSchema_short r :
  length (io.pending r) < schema.MagicSize ->
  io.final r = io.EOF \/ io.final r = io.ErrUnexpectedEOF ->
  schema.checkSchema r = inl schema.ErrNotSchema.
Proof.
  intros Hlt Hfin. unfold schema.checkSchema, io.ReadFull.
  rewrite decide_False by lia.
  destruct (io.pending r); destruct Hfin as [-> | ->]; done.
Qed.

(** Any other error while the magic is read is reported as it is. *)
Lemma checkSchema_failure r code :
  length (io.pending r) < schema.MagicSize ->
  io.final r = io.Failure code ->
  schema.checkSchema r = inl (schema.ErrCannotCheck (io.Failure code)).
Proof.
  intros Hlt Hfin. unfold schema.checkSchema, io.ReadFull.
  rewrite decide_False by lia. rewrite Hfin. by destruct (io.pending r).
Qed.

Lemma checkSchema_mismatch r :
  schema.MagicSize <= length (io.pending r) ->
  take schema.MagicSize (io.pending r) <> schema.magic ->
  schema.checkSchema r = inl schema.ErrNotSchema.
Proof.
  intros Hle Hne. unfold schema.checkSchema, io.ReadFull.
  rewrite decide_True by done. rewrite IsSchema_take by done.
  destruct (schema.IsSchema (io.pending r)) eqn:Hs; [|done].
  apply IsSchema_true in Hs. tauto.
Qed.

(** C7. A stream that ends (cleanly or after a truncated read) before
    [MagicSize] bytes were read, or whose first [MagicSize] bytes differ
    from the magic, makes [Decode] and [DecodeType] fail with
    [ErrNotSchema]. *)
Theorem Decode_not_schema (reg : schema.Registry) (r : io.Reader) :
  not_a_schema r ->
  schema.Decode reg r = inl schema.ErrNotSchema
  /\ schema.DecodeType r = inl schema.ErrNotSchema.
Proof.
  intros Hr. assert (schema.checkSchema r = inl schema.ErrNotSchema) as Hc.
  { destruct Hr as [[? ?]|[? ?]];
      [by apply checkSchema_short | by apply checkSchema_mismatch]. }
  unfold schema.Decode, schema.DecodeType. by rewrite Hc.
Qed.

Lemma Decode_not_schema_witness :
  not_a_schema compact_pin
  /\ schema.Decode (schema.init schema.empty_registry) compact_pin = inl schema.ErrNotSchema
  /\ schema.DecodeType compact_pin = inl schema.ErrNotSchema.
Proof.
  assert (not_a_schema compact_pin) as H.
  { right. split; [vm_compute; lia | by vm_compute]. }
  split; [exact H|].
  exact (Decode_not_schema (schema.init schema.empty_registry) compact_pin H).
Defined.

(** The JSON of the scenario is valid: without the check of the magic it
    is a document. *)
Lemma compact_pin_is_json : is_Some (json.parse (io.pending compact_pin)).
Proof. vm_compute. eauto. Qed.

(** ** The size limit *)

Lemma decodeType_too_large r :
  (schema.maxSize <= lenN (io.pending r))%N ->
  (schema.decodeType r).1 = inl schema.ErrTooLarge.
Proof.
  intros Hle. unfold schema.decodeType, io.ReadAll, io.LimitReader. simpl.
  rewrite (proj2 (N.leb_le _ _)) by done.
  rewrite lenN_takeN, N.min_l by done. by rewrite N.eqb_refl.
Qed.

(** C8. A stream that passes the check of the magic and has 16 MiB or more
    is refused with the error "schema object is too large": [DecodeType]
    returns it, [Decode] returns it as the cause of "cannot decode schema
    object"; it is neither [ErrNotSchema] nor an error of the JSON
    parser. *)
Theorem Decode_too_large (reg : schema.Registry) (r : io.Reader) :
  schema.IsSchema (io.pending r) = true ->
  (schema.maxSize <= lenN (io.pending r))%N ->
  schema.Decode reg r = inl (schema.ErrCannotDecode schema.ErrTooLarge)
  /\ schema.DecodeType r = inl schema.ErrTooLarge
  /\ schema.Decode reg r <> inl schema.ErrNotSchema
  /\ (forall e, schema.Decode reg r <> inl (schema.ErrCannotDecode (schema.ErrJSON e))).
Proof.
  intros Hs Hle.
  assert (schema.Decode reg r = inl (schema.ErrCannotDecode schema.ErrTooLarge)
          /\ schema.DecodeType r = inl schema.ErrTooLarge) as [Hdec Htyp].
  { unfold schema.Decode, schema.DecodeType, schema.DecodeJSON, schema.decode.
    rewrite checkSchema_ok by done.
    pose proof (decodeType_too_large r Hle) as Hd.
    destruct (schema.decodeType r) as [res r']. simpl in Hd. by subst res. }
  rewrite Hdec. by repeat split.
Qed.

Lemma oversized_size : lenN (io.pending oversized) = (schema.maxSize + 11)%N.
Proof.
  unfold oversized, lenN. cbn [io.pending].
  rewrite length_app, length_replicate, length_magic, MagicSize_eq. lia.
Qed.

Lemma Decode_too_large_witness :
  schema.Decode schema.empty_registry oversized
    = inl (schema.ErrCannotDecode schema.ErrTooLarge)
  /\ schema.DecodeType oversized = inl schema.ErrTooLarge
  /\ schema.Decode schema.empty_registry oversized <> inl schema.ErrNotSchema
  /\ (forall e, schema.Decode schema.empty_registry oversized
                <> inl (schema.ErrCannotDecode (schema.ErrJSON e))).
Proof.
  apply (Decode_too_large schema.empty_registry oversized).
  - apply IsSchema_magic_app.
  - rewrite oversized_size. lia.
Defined.

(** ** The layout of an encoded blob *)

(** The text that [Encode] writes, in one piece. *)
Lemma encoded_eq reg o p :
  encoded reg o = Some p ->
  exists typ out,
    schema.TypeOf reg o = inr typ
    /\ json.Encode (json.mkEncoder [] schema.tab false) o = inr out
    /\ p = <[length (schema.magic ++ [SP; QUOTE] ++ typ ++ [QUOTE]) := COMMA]>
             (schema.magic ++ [SP; QUOTE] ++ typ ++ [QUOTE] ++ out).
Proof.
  unfold encoded, schema.Encode. destruct (schema.TypeOf reg o) as [e|typ]; [done|].
  change (json.SetEscapeHTML _ false) with (json.mkEncoder [] schema.tab false).
  destruct (json.Encode _ o) as [e|out] eqn:Hout; [done|].
  cbv zeta. case_decide; [|done].
  unfold io.Write. cbn [io.broken io.written io.Buffer app]. intros [= <-].
  exists typ, out. split; [done|]. split; [done|].
  by rewrite <- !(assoc_L (++)).
Qed.


Lemma encoded_layout reg o p :
  encoded reg o = Some p ->
  exists typ rest, p = schema.magic ++ [SP; QUOTE] ++ typ ++ QUOTE :: rest.
Proof.
  intros (typ & out & _ & _ & ->)%encoded_eq.
  destruct out as [|b out].
  - exists typ, []. rewrite list_insert_ge; [|rewrite !length_app; simpl; lia].
    by rewrite app_nil_r.
  - exists typ, (COMMA :: out).
    replace (schema.magic ++ [SP; QUOTE] ++ typ ++ [QUOTE] ++ b :: out)
      with ((schema.magic ++ [SP; QUOTE] ++ typ ++ [QUOTE]) ++ b :: out)
      by (by rewrite <- !(assoc_L (++))).
    rewrite insert_app_r_alt by lia. rewrite Nat.sub_diag. simpl.
    rewrite <- !(assoc_L (++)). done.
Qed.

(** C5, as stated, fails: the first [MagicSize] bytes of a blob are not the
    bytes before the opening quote of the type name, because a space stands
    between the magic and the quote. *)
Lemma MagicSize_not_before_quote :
  exists p,
    encoded (schema.init schema.empty_registry) an_op = Some p
    /\ take schema.MagicSize p <> before_type_value p
    /\ length (before_type_value p) <> schema.MagicSize.
Proof.
  eexists. split; [vm_compute; reflexivity|]. split; vm_compute; congruence.
Qed.

(** C5, amended. [MagicSize] is the length of [magic], which ends with the
    colon after the key: the first [MagicSize] bytes of every blob that
    [Encode] writes are [magic], and the bytes before the opening quote of
    the type name are [magic] and one space, [MagicSize + 1] bytes. *)
Theorem MagicSize_layout (reg : schema.Registry) (o : schema.Object) (p : bytes) :
  encoded reg o = Some p ->
  schema.MagicSize = length schema.magic
  /\ take schema.MagicSize p = schema.magic
  /\ before_type_value p = schema.magic ++ [SP]
  /\ length (before_type_value p) = schema.MagicSize + 1.
Proof.
  intros (typ & rest & ->)%encoded_layout.
  split; [done|]. split; [by rewrite take_app_length'|].
  assert (before_type_value (schema.magic ++ [SP; QUOTE] ++ typ ++ QUOTE :: rest)
          = schema.magic ++ [SP]) as ->; [|done].
  reflexivity.
Qed.

Lemma MagicSize_layout_witness :
  exists p,
    encoded (schema.init schema.empty_registry) an_op = Some p
    /\ schema.MagicSize = length schema.magic
    /\ take schema.MagicSize p = schema.magic
    /\ before_type_value p = schema.magic ++ [SP]
    /\ length (before_type_value p) = schema.MagicSize + 1.
Proof.
  eexists. split; [vm_compute; reflexivity|].
  apply (MagicSize_layout (schema.init schema.empty_registry) an_op). vm_compute. reflexivity.
Defined.

(** ** [Commit] *)

Lemma exists_name_true name dir : local.exists_name name dir = true <-> name ∈ dir.*1.
Proof. unfold local.exists_name. apply bool_decide_eq_true. Qed.

Lemma exists_name_false name dir : local.exists_name name dir = false <-> name ∉ dir.*1.
Proof. unfold local.exists_name. apply bool_decide_eq_false. Qed.

Lemma count_name_app name d1 d2 :
  local.count_name name (d1 ++ d2) = local.count_name name d1 + local.count_name name d2.
Proof. unfold local.count_name. by rewrite List.filter_app, length_app. Qed.

Lemma count_name_absent name dir : name ∉ dir.*1 -> local.count_name name dir = 0.
Proof.
  unfold local.count_name. induction dir as [|[k v] dir IH]; [done|].
  rewrite fmap_cons, not_elem_of_cons. simpl. intros [Hne Hnot].
  rewrite bool_decide_false by done. auto.
Qed.

Lemma count_name_present name dir :
  wf_dir dir -> name ∈ dir.*1 -> local.count_name name dir = 1.
Proof.
  unfold wf_dir. induction dir as [|[k v] dir IH]; [by intros _ ?%elem_of_nil|].
  rewrite fmap_cons, NoDup_cons, elem_of_cons. simpl. intros [Hk Hnd] Hin.
  change (local.count_name name ((k, v) :: dir))
    with (local.count_name name ([(k, v)] ++ dir)).
  rewrite count_name_app. unfold local.count_name at 1. simpl.
  destruct (decide (k = name)) as [->|Hne].
  - rewrite bool_decide_true by done. by rewrite count_name_absent.
  - rewrite bool_decide_false by done. destruct Hin as [->|Hin]; [done|]. by rewrite IH.
Qed.

Lemma wf_dir_snoc dir name file :
  wf_dir dir -> name ∉ dir.*1 -> wf_dir (dir ++ [(name, file)]).
Proof.
  unfold wf_dir. intros Hnd Hnot. rewrite fmap_app. apply NoDup_app. split; [done|].
  split; [|apply NoDup_singleton]. intros x Hx ->%list_elem_of_singleton. done.
Qed.

(** The three outcomes of [linkFile]. *)
Lemma linkFile_cases fault dir name file :
  (exists code, fault = Some code
     /\ local.linkFile fault dir name file = (dir, Some (os.Errno (syscall.Eother code))))
  \/ (fault = None /\ name ∈ dir.*1
      /\ local.linkFile fault dir name file = (dir, Some os.ErrExist))
  \/ (fault = None /\ (name ∉ dir.*1)
      /\ local.linkFile fault dir name file = (dir ++ [(name, file)], None)).
Proof.
  unfold local.linkFile, local.Linkat. destruct fault as [code|]; [left; eauto|].
  destruct (local.exists_name name dir) eqn:He.
  - right; left. by apply exists_name_true in He.
  - right; right. by apply exists_name_false in He.
Qed.

(** A publish that finds the canonical name taken is a success, and the
    directory is left as it was. *)
Lemma Commit_exists env s tmp ref :
  local.SaveRefFile env = None -> local.Fchmod env = None ->
  local.Linkat_fault env = None ->
  types.String ref ∈ (local.blobDir s).*1 ->
  local.Commit env s (local.mkTmp (Some tmp)) ref = (None, s, local.mkTmp None).
Proof.
  intros Hsave Hch Hfault Hin. unfold local.Commit. cbn [local.f]. rewrite Hsave, Hch, Hfault.
  destruct (linkFile_cases None (local.blobDir s) (types.String ref)
              (os.mkFile (os.content tmp) local.roPerm))
    as [(? & ? & _)|[(_ & _ & ->)|(_ & Hnot & _)]]; [done| |done].
  cbn. by destruct s.
Qed.

(** After a successful [Commit] the canonical name is in the directory. *)
Lemma Commit_nil_present env s t ref s' t' :
  local.Commit env s t ref = (None, s', t') ->
  types.String ref ∈ (local.blobDir s').*1.
Proof.
  unfold local.Commit. destruct (local.f t) as [tmp|]; [|done].
  destruct (local.SaveRefFile env); [done|]. destruct (local.Fchmod env); [done|].
  destruct (linkFile_cases (local.Linkat_fault env) (local.blobDir s) (types.String ref)
              (os.mkFile (os.content tmp) local.roPerm))
    as [(code & _ & ->)|[(_ & Hin & ->)|(_ & Hnot & ->)]]; cbn.
  - done.
  - by intros [= <- _].
  - destruct (local.addNotIndexed env); [done|]. intros [= _ <- _]. cbn.
    rewrite fmap_app. apply elem_of_app. right. cbn. apply list_elem_of_singleton. done.
Qed.

Lemma Commit_wf env s t ref :
  wf_dir (local.blobDir s) -> wf_dir (local.blobDir (local.Commit env s t ref).1.2).
Proof.
  intros Hwf. unfold local.Commit. destruct (local.f t) as [tmp|]; [|done].
  destruct (local.SaveRefFile env); [done|]. destruct (local.Fchmod env); [done|].
  destruct (linkFile_cases (local.Linkat_fault env) (local.blobDir s) (types.String ref)
              (os.mkFile (os.content tmp) local.roPerm))
    as [(code & _ & ->)|[(_ & Hin & ->)|(_ & Hnot & ->)]]; cbn; [done|done|].
  destruct (local.addNotIndexed env); cbn; by apply wf_dir_snoc.
Qed.

Section commit_twice.

(** The content hash of package [types]. *)
Variable Hash : bytes -> types.Ref.

(** C1. After a successful [Commit] of the content [c], a second [Commit]
    of [c] that comes to its publish step finds the canonical name taken
    and returns nil; the directory is unchanged and holds exactly one
    entry named [Hash(c).String()]. *)
Theorem Commit_twice (c : bytes) (env1 env2 : local.CommitEnv)
        (s0 s1 : local.Storage) (t1 : local.linuxTmpFile) :
  wf_dir (local.blobDir s0) ->
  local.Commit env1 s0 (staged c) (Hash c) = (None, s1, t1) ->
  local.SaveRefFile env2 = None -> local.Fchmod env2 = None ->
  local.Linkat_fault env2 = None ->
  local.linkFile (local.Linkat_fault env2) (local.blobDir s1) (types.String (Hash c))
                 (os.mkFile c local.roPerm)
    = (local.blobDir s1, Some os.ErrExist)
  /\ local.Commit env2 s1 (staged c) (Hash c) = (None, s1, local.mkTmp None)
  /\ local.count_name (types.String (Hash c)) (local.blobDir s1) = 1.
Proof.
  intros Hwf H1 Hsave Hch Hfault.
  pose proof (Commit_nil_present _ _ _ _ _ _ H1) as Hin.
  pose proof (Commit_wf env1 s0 (staged c) (Hash c) Hwf) as Hwf1.
  rewrite H1 in Hwf1. cbn in Hwf1.
  split; [|split].
  - rewrite Hfault.
    destruct (linkFile_cases None (local.blobDir s1) (types.String (Hash c))
                (os.mkFile c local.roPerm))
      as [(? & ? & _)|[(_ & _ & ->)|(_ & Hnot & _)]]; done.
  - by apply Commit_exists.
  - by apply count_name_present.
Qed.

End commit_twice.

Lemma Commit_twice_witness :
  let c := bs "hello" in
  let s1 := local.mkStorage [(types.String (toy_hash c), os.mkFile c local.roPerm)] in
  local.linkFile None (local.blobDir s1) (types.String (toy_hash c)) (os.mkFile c local.roPerm)
    = (local.blobDir s1, Some os.ErrExist)
  /\ local.Commit calm s1 (staged c) (toy_hash c) = (None, s1, local.mkTmp None)
  /\ local.count_name (types.String (toy_hash c)) (local.blobDir s1) = 1.
Proof.
  intros c s1.
  apply (Commit_twice toy_hash c calm calm (local.mkStorage []) s1 (local.mkTmp None)).
  - apply NoDup_nil_2.
  - vm_compute. reflexivity.
  - reflexivity.
  - reflexivity.
  - reflexivity.
Defined.

(** C2, as stated, fails: [Commit] returns an error although the content
    was published, because the link had succeeded when [addNotIndexed]
    failed. *)
Lemma Commit_error_visible :
  let ref := toy_hash (bs "hello") in
  let s := local.mkStorage [] in
  exists err s' t',
    local.Commit index_fails s (staged (bs "hello")) ref = (Some err, s', t')
    /\ local.exists_name (types.String ref) (local.blobDir s) = false
    /\ local.exists_name (types.String ref) (local.blobDir s') = true.
Proof.
  intros ref s. eexists _, _, _. split; [vm_compute; reflexivity|].
  split; vm_compute; reflexivity.
Qed.

(** C2, amended. When [Commit] returns an error, either it failed no later
    than at the link (a closed handle, [SaveRefFile], [Fchmod], [linkFile])
    and the blob directory is unchanged, or the link had succeeded: then
    the canonical name was free before, the content is now published under
    it read-only, and the error is the one of [addNotIndexed] or of the
    final [Close]. *)
Theorem Commit_error (env : local.CommitEnv) (s s' : local.Storage)
        (t t' : local.linuxTmpFile) (ref : types.Ref) (err : os.error) :
  local.Commit env s t ref = (Some err, s', t') ->
  ((local.f t = None \/ local.SaveRefFile env <> None \/ local.Fchmod env <> None
    \/ local.Linkat_fault env <> None)
   /\ s' = s)
  \/ (exists tmp,
        local.f t = Some tmp
        /\ (types.String ref ∉ (local.blobDir s).*1)
        /\ local.blobDir s'
           = local.blobDir s ++ [(types.String ref, os.mkFile (os.content tmp) local.roPerm)]
        /\ (local.addNotIndexed env = Some err
            \/ (local.addNotIndexed env = None /\ local.Close env = Some err))).
Proof.
  unfold local.Commit. destruct (local.f t) as [tmp|]; [|intros [= _ <- _]; left; auto].
  destruct (local.SaveRefFile env) eqn:Hsave; [intros [= _ <- _]; left; auto 6|].
  destruct (local.Fchmod env) eqn:Hch; [intros [= _ <- _]; left; auto 6|].
  destruct (linkFile_cases (local.Linkat_fault env) (local.blobDir s) (types.String ref)
              (os.mkFile (os.content tmp) local.roPerm))
    as [(code & Hf & ->)|[(_ & Hin & ->)|(_ & Hnot & ->)]]; cbn.
  - intros [= _ <- _]. left. split; [|by destruct s]. rewrite Hf. auto 6.
  - done.
  - intros H. right. exists tmp. split; [done|]. split; [done|].
    destruct (local.addNotIndexed env) eqn:Hidx.
    + injection H as <- <- _. auto.
    + injection H as Hc <- _. auto.
Qed.

Lemma Commit_error_witness :
  exists err s',
    ((local.f (staged (bs "hello")) = None \/ local.SaveRefFile index_fails <> None
      \/ local.Fchmod index_fails <> None \/ local.Linkat_fault index_fails <> None)
     /\ s' = local.mkStorage [])
    \/ (exists tmp,
          local.f (staged (bs "hello")) = Some tmp
          /\ (types.String (toy_hash (bs "hello")) ∉ (local.blobDir (local.mkStorage [])).*1)
          /\ local.blobDir s'
             = local.blobDir (local.mkStorage [])
               ++ [(types.String (toy_hash (bs "hello")),
                    os.mkFile (os.content tmp) local.roPerm)]
          /\ (local.addNotIndexed index_fails = Some err
              \/ (local.addNotIndexed index_fails = None
                  /\ local.Close index_fails = Some err))).
Proof.
  eexists _, _.
  apply (Commit_error index_fails (local.mkStorage []) _ (staged (bs "hello")) (local.mkTmp None)
           (toy_hash (bs "hello"))).
  vm_compute. reflexivity.
Defined.

(** ** [tmpFile] and the flag [noTmpFile] *)

(** A caller that runs alone does what [tmpFile] does. *)
Lemma tmpFile_run_caller answer rw p :
  local.run_caller 4 answer (local.AtLoad rw) p
  = (local.Returned (local.tmpFile answer rw p).1, (local.tmpFile answer rw p).2).
Proof.
  unfold local.tmpFile. cbn [local.run_caller local.caller_step].
  destruct (negb (local.LoadInt32 p =? 0)%Z); [done|].
  cbn [local.run_caller local.caller_step local.unix_Open].
  destruct answer as [fd|[]]; done.
Qed.

Lemma opens_made_app tr1 tr2 : opens_made (tr1 ++ tr2) = opens_made tr1 + opens_made tr2.
Proof. unfold opens_made. by rewrite List.filter_app, length_app. Qed.





(** A call that starts once the flag is set goes to [tmpFileGen] without
    a system call, and leaves the flag alone. *)
Lemma tmpFile_fallback answer rw p :
  local.noTmpFile p <> 0%Z ->
  local.tmpFile answer rw p
  = (local.Generic, local.mkProcess (local.noTmpFile p) (local.trace p ++ [local.EvTmpFileGen])).
Proof.
  intros Hflag. unfold local.tmpFile, local.LoadInt32.
  by destruct (Z.eqb_spec (local.noTmpFile p) 0).
Qed.

Lemma tmpFiles_fallback calls p :
  local.noTmpFile p <> 0%Z ->
  local.tmpFiles calls p
  = (replicate (length calls) local.Generic,
     local.mkProcess (local.noTmpFile p)
                     (local.trace p ++ replicate (length calls) local.EvTmpFileGen)).
Proof.
  revert p. induction calls as [|[answer rw] calls IH]; intros p Hflag.
  - cbn. rewrite app_nil_r. by destruct p.
  - cbn [local.tmpFiles]. rewrite tmpFile_fallback by done. rewrite IH by done.
    cbn. by rewrite <- (assoc_L (++)).
Qed.

(** [EOPNOTSUPP] makes this one call fall back and leaves the flag as it
    is: the next call tries the anonymous file again. *)
Lemma tmpFile_EOPNOTSUPP rw p :
  local.noTmpFile p = 0%Z ->
  let '(t, p1) := local.tmpFile (local.OpenErr syscall.EOPNOTSUPP) rw p in
  t = local.Generic /\ local.noTmpFile p1 = 0%Z.
Proof.
  intros Hp. unfold local.tmpFile, local.LoadInt32. rewrite Hp. cbn. by destruct rw.
Qed.









(** ** [HashWith] *)

Section hash_with.

Variable Sum : bytes -> types.Ref.

(** C10. When the file opens, [StatFile] is not asked or misses, and the
    file is read to its end, [HashWith] returns no error and the
    [SizedRef] of the content hash and the number of bytes read, whether
    or not [SaveRefFile] fails; its error is printed to the log and
    nothing else is. *)
Theorem HashWith_ok (env : cas.Env) (log : list os.error) (path : bytes)
        (info : option cas.FileInfo) (force : bool) (f : io.Reader) :
  cas.Open env path = inr f ->
  force = true \/ stat_miss env path ->
  io.final f = io.EOF ->
  (Z.of_nat (length (io.pending f)) < 2 ^ 63)%Z ->
  cas.HashWith Sum env log path info force
  = (inr (types.mkSizedRef (Sum (io.pending f)) (Z.of_nat (length (io.pending f)))),
     log ++ match cas.SaveRefFile env path info (Sum (io.pending f)) with
            | Some err => [err]
            | None => []
            end).
Proof.
  intros Hopen Hmiss Hfin Hlen. unfold cas.HashWith. rewrite Hopen.
  assert ((if negb force
           then match cas.StatFile env path with
                | inr sr => if negb (types.Zero (types.SizedRef_Ref sr)) then Some sr else None
                | inl _ => None
                end
           else None) = None) as ->.
  { destruct force; [done|]. destruct Hmiss as [?|Hmiss]; [done|]. cbn.
    destruct (cas.StatFile env path) as [e|sr] eqn:Hs; [done|].
    by rewrite (Hmiss sr Hs). }
  unfold io.Copy. rewrite Hfin. unfold cas.uint64.
  rewrite Z.mod_small by lia.
  destruct (cas.SaveRefFile env path info (Sum (io.pending f))); [done|].
  by rewrite app_nil_r.
Qed.

End hash_with.

Lemma HashWith_ok_witness :
  cas.HashWith toy_hash one_file [] (bs "a.txt") None false
  = (inr (types.mkSizedRef (toy_hash (bs "content")) 7),
     [os.Other (bs "read-only file system")]).
Proof.
  apply (HashWith_ok toy_hash one_file [] (bs "a.txt") None false
           (io.mkReader (bs "content") io.EOF)).
  - reflexivity.
  - right. intros sr Hsr. discriminate Hsr.
  - reflexivity.
  - vm_compute. reflexivity.
Defined.

(** ** [PeekType] *)

(** When [decodeType] succeeds it has read the whole stream, which ended
    with [EOF] before the limit. *)
Lemma decodeType_inr r typ data r' :
  schema.decodeType r = (inr (typ, data), r') ->
  data = io.pending r /\ io.final r = io.EOF /\ r' = io.mkReader [] io.EOF
  /\ (lenN (io.pending r) < schema.maxSize)%N.
Proof.
  unfold schema.decodeType, io.ReadAll, io.LimitReader. cbn [io.lr_R io.lr_N].
  destruct (N.leb_spec schema.maxSize (lenN (io.pending r))) as [Hle|Hlt].
  - rewrite lenN_takeN, N.min_l, N.eqb_refl by done. done.
  - rewrite takeN_all by lia. cbn [io.lr_R].
    destruct (io.final r) eqn:Hfin; [|done|done].
    rewrite (proj2 (N.eqb_neq _ _)) by lia.
    destruct (json.Unmarshal _ _); [done|]. intros [= <- <- <-]. done.
Qed.

(** C4. The code breaks the claim.  On [broken_blob], a stream that has
    the magic and is no JSON document, [PeekType] returns a reader that is
    at the end of its input: [decodeType] has failed, its data is nil, and
    the [MultiReader] that is to restore the stream is built from this
    nil.  [Decode] on the reader returned fails with [ErrNotSchema],
    while [Decode] on the stream itself reports the syntax error. *)
Lemma PeekType_loses_input :
  schema.PeekType broken_blob
  = (Some (io.mkReader [] io.EOF), [], Some (schema.ErrJSON json.SyntaxError))
  /\ schema.Decode (schema.init schema.empty_registry) (io.mkReader [] io.EOF)
     = inl schema.ErrNotSchema
  /\ schema.Decode (schema.init schema.empty_registry) broken_blob
     = inl (schema.ErrCannotDecode (schema.ErrJSON json.SyntaxError))
  /\ ~ peek_restores (schema.init schema.empty_registry) broken_blob.
Proof.
  split; [by vm_compute|]. split; [by vm_compute|]. split; [by vm_compute|].
  intros (r' & typ & err & Hpeek & Hdec).
  vm_compute in Hpeek. injection Hpeek as <- _ _.
  vm_compute in Hdec. discriminate Hdec.
Qed.

(** On a stream that fails the check of the magic, [PeekType] returns no
    reader at all. *)
Lemma PeekType_not_schema r :
  not_a_schema r -> schema.PeekType r = (None, [], Some schema.ErrNotSchema).
Proof.
  intros Hr. unfold schema.PeekType.
  assert (schema.checkSchema r = inl schema.ErrNotSchema) as ->; [|done].
  destruct Hr as [[? ?]|[? ?]]; [by apply checkSchema_short | by apply checkSchema_mismatch].
Qed.

(** X28. When [PeekType] returns no error, the reader it returns is the
    stream as it was given: it delivers every byte again, so that [Decode]
    on it gives the object or the error that [Decode] gives on the stream
    itself, and the type reported is the one [DecodeType] finds. *)
Theorem PeekType_restores (reg : schema.Registry) (r r' : io.Reader) (typ : bytes) :
  schema.PeekType r = (Some r', typ, None) ->
  r' = r
  /\ schema.Decode reg r' = schema.Decode reg r
  /\ schema.DecodeType r = inr typ.
Proof.
  unfold schema.PeekType, schema.DecodeType.
  destruct (schema.checkSchema r) as [e|r1] eqn:Hc; [done|].
  apply checkSchema_inr in Hc as [_ ->].
  destruct (schema.decodeType r) as [[e|[typ' data]] r2] eqn:Hd; [done|].
  apply decodeType_inr in Hd as (-> & Hfin & -> & _).
  intros [= <- <-]. unfold io.MultiReader, io.NewReader. cbn.
  rewrite app_nil_r. assert (io.mkReader (io.pending r) io.EOF = r) as ->; [|done].
  destruct r as [pend fin]. cbn in Hfin. by subst fin.
Qed.

Lemma PeekType_restores_witness :
  exists p r' typ,
    encoded (schema.init schema.empty_registry) an_op = Some p
    /\ schema.PeekType (io.mkReader p io.EOF) = (Some r', typ, None)
    /\ r' = io.mkReader p io.EOF
    /\ schema.Decode (schema.init schema.empty_registry) r'
       = schema.Decode (schema.init schema.empty_registry) (io.mkReader p io.EOF)
    /\ schema.DecodeType (io.mkReader p io.EOF) = inr typ.
Proof.
  eexists _, _, _. split; [vm_compute; reflexivity|].
  match goal with
  | |- ?P /\ _ => assert P as Hpeek by (vm_compute; reflexivity)
  end.
  split; [exact Hpeek|].
  exact (PeekType_restores (schema.init schema.empty_registry) _ _ _ Hpeek).
Defined.

(** ** The parser never runs out of fuel *)

Lemma skip_space_length s : length (json.skip_space s) <= length s.
Proof.
  induction s as [|b s IH]; [done|]. cbn [json.skip_space].
  destruct (json.is_space b); cbn [length]; lia.
Qed.

Lemma prepend_Some p r k rest :
  json.prepend p r = Some (k, rest) -> exists k', r = Some (k', rest).
Proof. destruct r as [[k' rest']|]; [|done]. cbn. intros [= _ <-]. eauto. Qed.

Lemma scan_string_length n :
  forall s k rest, length s <= n -> json.scan_string s = Some (k, rest) -> length rest < length s.
Proof.
  induction n as [|n IH]; intros s k rest Hn.
  - destruct s; [done|cbn in Hn; lia].
  - destruct s as [|b r]; [done|]. cbn [length] in Hn. cbn [json.scan_string].
    assert (forall s' k', length s' <= n -> json.prepend k' (json.scan_string s') = Some (k, rest) ->
                          length rest < length s') as Hrec.
    { intros s' k' Hs' (k'' & Hk)%prepend_Some. by eapply IH. }
    repeat match goal with
           | |- Some _ = Some _ -> _ => intros [= <- <-]; cbn [length]; lia
           | |- None = Some _ -> _ => done
           | |- json.prepend _ (json.scan_string ?s') = Some _ -> _ =>
               let H := fresh in intros H; apply Hrec in H; cbn [length] in *; lia
           | |- context [match ?x with _ => _ end] => destruct x eqn:?
           end.
Qed.

Lemma span_digits_length s d r : json.span_digits s = (d, r) -> length r <= length s.
Proof.
  revert d r. induction s as [|b s IH]; intros d r; cbn [json.span_digits].
  - by intros [= <- <-].
  - destruct (json.is_digit b).
    + destruct (json.span_digits s) as [d' r'] eqn:Hs. intros [= <- <-].
      specialize (IH d' r' eq_refl). cbn [length]. lia.
    + by intros [= <- <-].
Qed.

(** Case analysis along the text of a scanner. *)
Ltac scan_cases :=
  repeat match goal with
         | |- Some _ = Some _ -> _ => intros [= <- <-]; cbn [length] in *; lia
         | |- None = Some _ -> _ => done
         | H : json.span_digits _ = _ |- _ => apply span_digits_length in H; cbn [length] in H
         | H : (_, _) = (_, _) |- _ => injection H as <- <-
         | H : context [match ?x with _ => _ end] |- _ => destruct x eqn:?
         | |- context [match ?x with _ => _ end] => destruct x eqn:?
         | |- context [let '(_, _) := ?x in _] => destruct x eqn:?
         end.

Lemma scan_exp_length acc s lit r :
  json.scan_exp acc s = Some (lit, r) -> length r <= length s.
Proof. unfold json.scan_exp. scan_cases. Qed.

Lemma scan_frac_length acc s lit r :
  json.scan_frac acc s = Some (lit, r) -> length r <= length s.
Proof.
  unfold json.scan_frac. scan_cases;
    intros H%scan_exp_length; cbn [length] in *; lia.
Qed.

Lemma scan_number_length s lit r :
  json.scan_number s = Some (lit, r) -> length r < length s.
Proof.
  unfold json.scan_number. scan_cases;
    intros H%scan_frac_length; cbn [length] in *; lia.
Qed.

Lemma strip_prefix_length lit s r : json.strip_prefix lit s = Some r -> length r <= length s.
Proof.
  revert s. induction lit as [|c lit IH]; intros s; cbn [json.strip_prefix].
  - by intros [= <-].
  - destruct s as [|b s]; [done|]. destruct (Byte.eqb c b); [|done].
    intros H%IH. cbn [length]. lia.
Qed.

Lemma skip_space_cons s b r : json.skip_space s = b :: r -> length r < length s.
Proof. intros H. pose proof (skip_space_length s) as Hs. rewrite H in Hs. cbn in Hs. lia. Qed.

(** What the facts at hand say about the lengths of the texts. *)
Ltac length_facts :=
  repeat match goal with
         | H : json.skip_space _ = _ :: _ |- _ => apply skip_space_cons in H
         | H : json.scan_string ?s = Some _ |- _ =>
             apply (scan_string_length (length s) s _ _ (le_n _)) in H
         | H : json.strip_prefix _ _ = Some _ |- _ => apply strip_prefix_length in H
         | H : json.scan_number _ = Some _ |- _ => apply scan_number_length in H
         end;
  cbn [length] in *.

(** A value, a list of members and a list of elements take at least one
    byte of the text. *)
Lemma parse_consumes fuel :
  (forall s v r, json.parse_value fuel s = json.Parsed v r -> length r < length s)
  /\ (forall s ms r, json.parse_members fuel s = json.Parsed ms r -> length r < length s)
  /\ (forall s vs r, json.parse_elements fuel s = json.Parsed vs r -> length r < length s).
Proof.
  induction fuel as [|fuel (IHv & IHm & IHe)]; [by repeat split|].
  repeat split; intros s x r;
    cbn [json.parse_value json.parse_members json.parse_elements];
    repeat match goal with
           | |- json.Parsed _ _ = json.Parsed _ _ -> _ => intros [= <- <-]
           | |- json.Invalid = json.Parsed _ _ -> _ => done
           | |- json.Starved = json.Parsed _ _ -> _ => done
           | H : json.parse_value fuel _ = json.Parsed _ _ |- _ => apply IHv in H
           | H : json.parse_members fuel _ = json.Parsed _ _ |- _ => apply IHm in H
           | H : json.parse_elements fuel _ = json.Parsed _ _ |- _ => apply IHe in H
           | |- context [match ?x with _ => _ end] => destruct x eqn:?
           end;
    length_facts; lia.
Qed.

(** Fuel of twice the length of the text is never used up. *)
Lemma parse_not_starved fuel :
  (forall s, 2 * length s + 1 <= fuel -> json.parse_value fuel s <> json.Starved)
  /\ (forall s, 2 * length s + 1 <= fuel -> json.parse_members fuel s <> json.Starved)
  /\ (forall s, 2 * length s + 2 <= fuel -> json.parse_elements fuel s <> json.Starved).
Proof.
  induction fuel as [|fuel (IHv & IHm & IHe)]; [repeat split; intros s; lia|].
  destruct (parse_consumes fuel) as (Cv & Cm & Ce).
  repeat split; intros s Hfuel;
    cbn [json.parse_value json.parse_members json.parse_elements];
    repeat match goal with
           | |- json.Parsed _ _ <> json.Starved => done
           | |- json.Invalid <> json.Starved => done
           | |- context [match ?x with _ => _ end] => destruct x eqn:?
           end;
    repeat match goal with
           | H : json.parse_value fuel _ = json.Parsed _ _ |- _ => apply Cv in H
           | H : json.parse_members fuel _ = json.Parsed _ _ |- _ => apply Cm in H
           | H : json.parse_elements fuel _ = json.Parsed _ _ |- _ => apply Ce in H
           end;
    length_facts;
    match goal with
    | H : json.parse_value fuel ?r = json.Starved |- _ => apply (IHv r) in H; [done|lia]
    | H : json.parse_members fuel ?r = json.Starved |- _ => apply (IHm r) in H; [done|lia]
    | H : json.parse_elements fuel ?r = json.Starved |- _ => apply (IHe r) in H; [done|lia]
    end.
Qed.

(** [json.parse] answers [None] only for a text that is no JSON document. *)
Lemma parse_total s : json.parse_value (json.fuel_for s) s <> json.Starved.
Proof. apply parse_not_starved. unfold json.fuel_for. lia. Qed.

(** ** JSON text: strings *)

Lemma scan_string_plain_byte b s :
  plain_byte b = true ->
  json.scan_string (b :: s) = json.prepend [b] (json.scan_string s).
Proof.
  unfold plain_byte. intros H. cbn [json.scan_string].
  apply andb_prop in H as [H Hbs]. apply andb_prop in H as [H Hq].
  apply andb_prop in H as [H32 _].
  destruct (Byte.eqb b QUOTE); [done|]. destruct (Byte.eqb b BACKSLASH); [done|].
  apply N.leb_le in H32. by rewrite (proj2 (N.ltb_ge _ _)).
Qed.

(** Reading the text of a plain string up to its closing quote. *)
Lemma scan_string_plain s rest :
  plain s -> json.scan_string (s ++ QUOTE :: rest) = Some (s, rest).
Proof.
  induction 1 as [|b s Hb _ IH]; [done|].
  cbn [app]. by rewrite scan_string_plain_byte, IH.
Qed.

(** Every byte is read back from the text the encoder writes for it. *)
Lemma scan_string_escape_byte b s :
  json.scan_string (json.escape_byte false b ++ s)
  = json.prepend [b] (json.scan_string s).
Proof. destruct b; reflexivity. Qed.

Lemma scan_string_quote s rest :
  json.scan_string (flat_map (json.escape_byte false) s ++ QUOTE :: rest) = Some (s, rest).
Proof.
  induction s as [|b s IH]; [done|].
  cbn [flat_map]. by rewrite <- (assoc_L (++)), scan_string_escape_byte, IH.
Qed.

(** ** JSON text: numbers *)

Lemma digit_first b :
  digit b ->
  json.is_space b = false /\ Byte.eqb b LBRACE = false /\ Byte.eqb b LBRACKET = false
  /\ Byte.eqb b QUOTE = false /\ Byte.eqb b "t"%byte = false
  /\ Byte.eqb b "f"%byte = false /\ Byte.eqb b "n"%byte = false
  /\ Byte.eqb b "-"%byte = false.
Proof. unfold digit. destruct b; intros H; try discriminate H; repeat split. Qed.

Lemma span_digits_app ds rest :
  Forall digit ds -> delimited rest -> json.span_digits (ds ++ rest) = (ds, rest).
Proof.
  intros Hds (d & rest' & -> & Hd). induction Hds as [|b ds Hb _ IH].
  - destruct Hd as [-> | ->]; reflexivity.
  - cbn [app json.span_digits]. unfold digit in Hb. by rewrite Hb, IH.
Qed.

Lemma digits_of_uint_digits u : Forall digit (json.digits_of_uint u).
Proof. induction u; cbn [json.digits_of_uint]; constructor; done. Qed.

Lemma uint_of_digits_of_uint u : json.uint_of_digits (json.digits_of_uint u) = Some u.
Proof. induction u; cbn [json.digits_of_uint json.uint_of_digits]; [done|by rewrite IHu..]. Qed.

Lemma to_uint_normal n : Decimal.unorm (N.to_uint n) = N.to_uint n.
Proof. rewrite <- DecimalN.Unsigned.to_of. by rewrite DecimalN.Unsigned.of_to. Qed.

(** The decimal text of a number is [0], or starts with another digit. *)
Lemma FormatUint_shape n :
  json.FormatUint n = ["0"%byte]
  \/ exists d ds, json.FormatUint n = d :: ds /\ digit d
                  /\ Byte.eqb d "0"%byte = false /\ Forall digit ds.
Proof.
  unfold json.FormatUint. pose proof (to_uint_normal n) as Hn.
  destruct (N.to_uint n) as [|u|u|u|u|u|u|u|u|u|u].
  - by destruct (DecimalFacts.unorm_nonnil Decimal.Nil).
  - left. rewrite DecimalFacts.unorm_D0 in Hn. unfold Decimal.unorm in Hn.
    destruct (Decimal.nzhead u) eqn:Hu; try discriminate Hn.
    + by injection Hn as <-.
    + injection Hn as ->. by destruct (DecimalFacts.nzhead_nonzero u u).
  - right. eexists _, _. split; [done|]. split; [done|]. split; [done|]. apply digits_of_uint_digits.
  - right. eexists _, _. split; [done|]. split; [done|]. split; [done|]. apply digits_of_uint_digits.
  - right. eexists _, _. split; [done|]. split; [done|]. split; [done|]. apply digits_of_uint_digits.
  - right. eexists _, _. split; [done|]. split; [done|]. split; [done|]. apply digits_of_uint_digits.
  - right. eexists _, _. split; [done|]. split; [done|]. split; [done|]. apply digits_of_uint_digits.
  - right. eexists _, _. split; [done|]. split; [done|]. split; [done|]. apply digits_of_uint_digits.
  - right. eexists _, _. split; [done|]. split; [done|]. split; [done|]. apply digits_of_uint_digits.
  - right. eexists _, _. split; [done|]. split; [done|]. split; [done|]. apply digits_of_uint_digits.
  - right. eexists _, _. split; [done|]. split; [done|]. split; [done|]. apply digits_of_uint_digits.
Qed.

Lemma scan_tail_delimited acc rest :
  delimited rest -> json.scan_frac acc rest = Some (acc, rest).
Proof. intros (d & rest' & -> & [-> | ->]); reflexivity. Qed.

Lemma scan_number_uint n rest :
  delimited rest ->
  json.scan_number (json.FormatUint n ++ rest) = Some (json.FormatUint n, rest).
Proof.
  intros Hrest. destruct (FormatUint_shape n) as [-> | (d & ds & -> & Hd & Hnz & Hds)].
  - cbn. by rewrite scan_tail_delimited.
  - unfold json.scan_number. cbn [app].
    destruct (digit_first d Hd) as (_ & _ & _ & _ & _ & _ & _ & ->).
    rewrite Hnz. unfold digit in Hd. rewrite Hd.
    rewrite span_digits_app by done. cbn [app]. by rewrite scan_tail_delimited.
Qed.

Lemma ParseUint_FormatUint n :
  (n < 2 ^ 64)%N -> json.ParseUint (json.FormatUint n) = Some n.
Proof.
  intros Hn. unfold json.ParseUint.
  assert (json.FormatUint n <> []) as Hne.
  { destruct (FormatUint_shape n) as [-> | (d & ds & -> & _)]; done. }
  destruct (json.FormatUint n) eqn:Hf; [done|]. rewrite <- Hf. unfold json.FormatUint.
  rewrite uint_of_digits_of_uint, DecimalN.Unsigned.of_to.
  by rewrite (proj2 (N.ltb_lt _ _)).
Qed.

(** ** JSON text: values *)

Lemma parse_value_SP fuel s : json.parse_value fuel (SP :: s) = json.parse_value fuel s.
Proof. by destruct fuel. Qed.

Lemma parse_value_string fuel s rest :
  json.parse_value (S fuel) (json.quote false s ++ rest) = json.Parsed (json.String s) rest.
Proof.
  unfold json.quote. cbn [app json.parse_value json.skip_space].
  change (json.is_space QUOTE) with false. cbv iota.
  change (Byte.eqb QUOTE LBRACE) with false. change (Byte.eqb QUOTE LBRACKET) with false.
  change (Byte.eqb QUOTE QUOTE) with true. cbv iota.
  rewrite <- (assoc_L (++)). change ([QUOTE] ++ rest) with (QUOTE :: rest).
  by rewrite scan_string_quote.
Qed.

Lemma parse_value_uint fuel n rest :
  delimited rest ->
  json.parse_value (S fuel) (json.FormatUint n ++ rest)
  = json.Parsed (json.Number (json.FormatUint n)) rest.
Proof.
  intros Hrest. pose proof (scan_number_uint n rest Hrest) as Hscan.
  assert (exists d ds, json.FormatUint n = d :: ds /\ digit d) as (d & ds & Hf & Hd).
  { destruct (FormatUint_shape n) as [-> | (d & ds & -> & Hd & _)]; [|by eauto].
    eexists _, _. split; [done|]. reflexivity. }
  rewrite Hf in Hscan |- *. cbn [app] in Hscan |- *.
  destruct (digit_first d Hd) as (Hsp & Hb1 & Hb2 & Hb3 & Hb4 & Hb5 & Hb6 & _).
  cbn [json.parse_value json.skip_space]. rewrite Hsp, Hb1, Hb2, Hb3, Hb4, Hb5, Hb6.
  by rewrite Hscan.
Qed.

(** ** References as text *)

Lemma hex_length l : length (types.hex l) = 2 * length l.
Proof. induction l as [|b l IH]; cbn [types.hex length]; lia. Qed.

Lemma unhex_hex_byte b s :
  types.unhex (types.hexdigit (Byte.to_N b / 16) :: types.hexdigit (Byte.to_N b mod 16) :: s)
  = cons b <$> types.unhex s.
Proof. destruct b; reflexivity. Qed.

Lemma unhex_hex l : types.unhex (types.hex l) = Some l.
Proof.
  induction l as [|b l IH]; [done|].
  cbn [types.hex]. by rewrite unhex_hex_byte, IH.
Qed.

(** A reference is read back from its canonical text. *)
Lemma ParseRef_String r : types.valid r -> types.ParseRef (types.String r) = Some r.
Proof.
  unfold types.valid, types.ParseRef, types.String. intros Hr.
  rewrite decide_True by (rewrite hex_length; lia).
  rewrite unhex_hex. by destruct r.
Qed.

(** ** JSON text: the members of an object *)

Lemma encode_value_reads_as v : reads_as (json.encode_value false v) (json_of v).
Proof.
  intros [|fuel] rest Hfuel Hrest; [done|].
  destruct v as [s|n|r]; cbn [json.encode_value json_of].
  - apply parse_value_string.
  - by apply parse_value_uint.
  - apply parse_value_string.
Qed.

Lemma raw_string_reads_as s : plain s -> reads_as (QUOTE :: s ++ [QUOTE]) (json.String s).
Proof.
  intros Hs [|fuel] rest Hfuel _; [done|]. cbn [app json.parse_value json.skip_space].
  change (json.is_space QUOTE) with false. cbv iota.
  change (Byte.eqb QUOTE LBRACE) with false. change (Byte.eqb QUOTE LBRACKET) with false.
  change (Byte.eqb QUOTE QUOTE) with true. cbv iota.
  rewrite <- (assoc_L (++)). change ([QUOTE] ++ rest) with (QUOTE :: rest).
  by rewrite scan_string_plain.
Qed.

Lemma encode_member_text fv :
  json.encode_member enc0 fv
  = member_text (reflect.Name fv.1, json.encode_value false fv.2).
Proof. reflexivity. Qed.

(** Reading the members that were written, up to the closing brace. *)
Lemma parse_members_text (ms : list (bytes * bytes * json.Value)) :
  forall (m : bytes * bytes * json.Value) fuel rest,
    Forall (fun m => plain m.1.1 /\ reads_as m.1.2 m.2) (m :: ms) ->
    length ms + 1 < fuel ->
    json.parse_members fuel
      (members_text m.1 (fst <$> ms) ++ NL :: RBRACE :: rest)
    = json.Parsed ((m.1.1, m.2) :: ((fun m => (m.1.1, m.2)) <$> ms)) rest.
Proof.
  induction ms as [|m' ms IH]; intros [[k txt] v] fuel rest Hall Hfuel;
    apply Forall_cons in Hall as [[Hk Hv] Hall]; cbn [fst snd] in *;
    (destruct fuel as [|fuel]; [cbn in Hfuel; lia|]);
    unfold members_text, member_text; cbn [fmap list_fmap flat_map fst snd app];
    cbn [json.parse_members json.skip_space];
    change (json.is_space NL) with true; change (json.is_space SP) with true;
    change (json.is_space QUOTE) with false; cbv iota;
    change (Byte.eqb QUOTE QUOTE) with true; cbv iota;
    rewrite <- !(assoc_L (++)); cbn [app];
    rewrite scan_string_plain by done; cbn [json.skip_space];
    change (json.is_space COLON) with false; cbv iota;
    change (Byte.eqb COLON COLON) with true; cbv iota;
    rewrite parse_value_SP.
  - rewrite (Hv fuel (NL :: RBRACE :: rest)) by (cbn in Hfuel; first [lia | eexists _, _; eauto]).
    cbn [json.skip_space]. change (json.is_space NL) with true.
    change (json.is_space RBRACE) with false. cbv iota.
    change (Byte.eqb RBRACE COMMA) with false. change (Byte.eqb RBRACE RBRACE) with true.
    done.
  - rewrite (Hv fuel _) by (cbn in Hfuel; first [lia | eexists _, _; eauto]).
    cbn [json.skip_space]. change (json.is_space COMMA) with false. cbv iota.
    change (Byte.eqb COMMA COMMA) with true. cbv iota.
    specialize (IH m' fuel rest Hall). unfold members_text, member_text in IH.
    repeat (progress (rewrite <- ?(assoc_L (++)) in IH; cbn [app] in IH)).
    repeat (progress (rewrite <- ?(assoc_L (++)); cbn [app])).
    rewrite IH by (cbn [length] in Hfuel; lia). done.
Qed.

(** ** The text of an encoded object *)

Lemma flat_map_members fvs :
  flat_map (fun m => COMMA :: json.encode_member enc0 m) fvs
  = flat_map (fun m => COMMA :: member_text m) (fst <$> (field_member <$> fvs)).
Proof. induction fvs as [|fv fvs IH]; [done|]. cbn [flat_map fmap list_fmap]. by rewrite IH. Qed.

(** What [Encode] writes for an object with at least one written field. *)
Lemma encoded_blob_text reg o typ fv fvs :
  schema.TypeOf reg o = inr typ ->
  json.emitted o = fv :: fvs ->
  encoded reg o = Some (blob_text typ (fv :: fvs)).
Proof.
  intros Htyp Hem. unfold encoded, schema.Encode. rewrite Htyp.
  change (json.SetEscapeHTML _ false) with enc0.
  unfold json.Encode. rewrite Hem. change (json.indented enc0) with true.
  cbv zeta iota. change (json.indentPrefix enc0) with (@nil byte).
  set (buf := ((schema.magic ++ [SP; QUOTE]) ++ typ) ++ [QUOTE]).
  set (tail := json.encode_member enc0 fv
               ++ flat_map (fun m => COMMA :: json.encode_member enc0 m) fvs
               ++ [NL] ++ [RBRACE; NL]).
  rewrite decide_True by (rewrite length_app; cbn [length]; lia).
  rewrite insert_app_r_alt, Nat.sub_diag by lia. cbn [insert list_insert].
  unfold io.Write. cbn [io.broken io.written io.Buffer app]. f_equal.
  unfold buf, tail, blob_text, members_text, type_member. cbn [fst snd].
  rewrite flat_map_members, encode_member_text.
  cbn [fmap list_fmap flat_map]. unfold member_text at 3. cbn [fst snd].
  change (field_member fv).1 with (reflect.Name fv.1, json.encode_value false fv.2).
  change schema.magic with ([LBRACE; NL; SP; QUOTE] ++ schema.typeField ++ [QUOTE; COLON]).
  repeat (progress (rewrite <- ?(assoc_L (++)); cbn [app])). done.
Qed.

Lemma length_flat_map_members (ms : list (bytes * bytes)) :
  length ms <= length (flat_map (fun m => COMMA :: member_text m) ms).
Proof.
  induction ms as [|m ms IH]; [done|].
  change (flat_map (fun m => COMMA :: member_text m) (m :: ms))
    with ((COMMA :: member_text m) ++ flat_map (fun m => COMMA :: member_text m) ms).
  rewrite length_app. cbn [length]. lia.
Qed.

(** The blob is a JSON document: the object of its members. *)
Lemma parse_blob_text typ fvs :
  plain typ ->
  Forall (fun fv => plain (reflect.Name fv.1)) fvs ->
  json.parse (blob_text typ fvs)
  = Some (json.Object ((schema.typeField, json.String typ)
                       :: ((fun fv => (reflect.Name fv.1, json_of fv.2)) <$> fvs))).
Proof.
  intros Htyp Hfvs. unfold json.parse.
  pose proof (parse_members_text (field_member <$> fvs) (type_member typ)) as Hms.
  assert (Forall (fun m : bytes * bytes * json.Value => plain m.1.1 /\ reads_as m.1.2 m.2)
                 (type_member typ :: (field_member <$> fvs))) as Hall.
  { constructor.
    - split; [by vm_compute; repeat constructor|]. by apply raw_string_reads_as.
    - apply Forall_fmap. eapply Forall_impl; [exact Hfvs|]. intros fv Hfv.
      split; [done|]. apply encode_value_reads_as. }
  assert (length (field_member <$> fvs) <= length (blob_text typ fvs)) as Hlen.
  { unfold blob_text, members_text. cbn [length]. rewrite !length_app.
    pose proof (length_flat_map_members (fst <$> (field_member <$> fvs))) as H.
    rewrite !length_fmap in *. lia. }
  unfold json.fuel_for.
  replace (2 * length (blob_text typ fvs) + 3) with (S (2 * length (blob_text typ fvs) + 2)) by lia.
  set (fuel := 2 * length (blob_text typ fvs) + 2).
  assert (length (field_member <$> fvs) + 1 < fuel) as Hfuel by (unfold fuel; lia).
  specialize (Hms fuel [NL] Hall Hfuel). clearbody fuel.
  unfold blob_text. cbn [json.parse_value json.skip_space].
  change (json.is_space LBRACE) with false. cbv iota.
  change (Byte.eqb LBRACE LBRACE) with true. cbv iota.
  change ([NL; RBRACE; NL]) with (NL :: RBRACE :: [NL]).
  assert (json.skip_space
            (members_text (type_member typ).1 (fst <$> (field_member <$> fvs))
             ++ NL :: RBRACE :: [NL])
          = QUOTE :: skipn 3 (members_text (type_member typ).1 (fst <$> (field_member <$> fvs))
                              ++ NL :: RBRACE :: [NL])) as ->.
  { unfold members_text, member_text. reflexivity. }
  change (Byte.eqb QUOTE RBRACE) with false. cbv iota.
  rewrite Hms. cbn [json.skip_space]. change (json.is_space NL) with true. cbv iota.
  do 3 f_equal. rewrite <- list_fmap_compose. done.
Qed.

(** ** Storing the members into the fields *)

Lemma equalFold_sym a b : json.equalFold a b = json.equalFold b a.
Proof. unfold json.equalFold. apply bool_decide_ext. split; congruence. Qed.

Lemma equalFold_refl a : json.equalFold a a = true.
Proof. unfold json.equalFold. by apply bool_decide_eq_true. Qed.

(** A key that no field answers to, not even up to the case of letters. *)
Lemma findField_None fs key :
  Forall (fun f => json.equalFold (reflect.Name f) key = false) fs ->
  json.findField fs key = None.
Proof.
  intros Hfs. unfold json.findField.
  assert (list_find (fun f => reflect.Name f = key) fs = None) as ->.
  { apply list_find_None. eapply Forall_impl; [exact Hfs|]. intros f Hf Heq.
    cbv beta in Hf. by rewrite Heq, equalFold_refl in Hf. }
  assert (list_find (fun f => json.equalFold (reflect.Name f) key = true) fs = None) as ->; [|done].
  apply list_find_None. eapply Forall_impl; [exact Hfs|]. intros f Hf.
  cbv beta in Hf. by rewrite Hf.
Qed.

(** The key of a field finds this field when no two fields share a key. *)
Lemma findField_exact fs i f :
  NoDup (reflect.Name <$> fs) -> fs !! i = Some f ->
  json.findField fs (reflect.Name f) = Some i.
Proof.
  intros Hnd Hi. unfold json.findField.
  assert (list_find (fun f' => reflect.Name f' = reflect.Name f) fs = Some (i, f)) as ->; [|done].
  apply list_find_Some. split; [done|]. split; [done|].
  intros j f' Hj Hlt Heq.
  assert (i = j); [|lia].
  apply (NoDup_lookup (reflect.Name <$> fs) i j (reflect.Name f)); [done|..];
    rewrite list_lookup_fmap; [by rewrite Hi | by rewrite Hj, <- Heq].
Qed.

Lemma object_skip fs ms vals saved :
  Forall (fun m => json.findField fs m.1 = None) ms ->
  json.object fs ms vals saved = inr (vals, saved).
Proof.
  induction 1 as [|[k v] ms Hk _ IH]; [done|].
  cbn [json.object]. cbn [fst] in Hk. by rewrite Hk.
Qed.

(** The value of a field is read back from what was written for it. *)
Lemma literalStore_json_of f v old :
  reflect.has_kind f v ->
  json.literalStore (reflect.FieldKind f) (json_of v) old = inr v.
Proof.
  unfold reflect.has_kind. destruct (reflect.FieldKind f), v as [s|n|r]; try done; intros Hv;
    cbn [json_of json.literalStore].
  - by rewrite ParseUint_FormatUint.
  - by rewrite ParseRef_String.
Qed.

(** A field that [omitempty] drops holds the zero value of its kind. *)
Lemma omitted_zero f v :
  reflect.has_kind f v -> json.omitted (f, v) = true -> v = reflect.Zero (reflect.FieldKind f).
Proof.
  unfold json.omitted, reflect.has_kind. cbn [fst snd].
  intros Hk [_ He]%andb_prop. destruct (reflect.FieldKind f), v as [[|]|[|]|]; done.
Qed.

Lemma written_cons fv fvs :
  written (fv :: fvs) = if json.omitted fv then written fvs else fv :: written fvs.
Proof. unfold written. cbn [List.filter]. by destruct (json.omitted fv). Qed.

(** The fields are filled from left to right: with the fields [fs1] done
    and holding [vs1], the members of the fields [fs2] bring their values
    [vs2]. *)
Lemma object_fields fs2 vs2 :
  Forall2 reflect.has_kind fs2 vs2 ->
  forall fs1 vs1 saved,
    NoDup (reflect.Name <$> (fs1 ++ fs2)) ->
    length fs1 = length vs1 ->
    json.object (fs1 ++ fs2)
                ((fun fv => (reflect.Name fv.1, json_of fv.2)) <$> written (zip fs2 vs2))
                (vs1 ++ zeros fs2) saved
    = inr (vs1 ++ vs2, saved).
Proof.
  induction 1 as [|f v fs2 vs2 Hfv _ IH]; intros fs1 vs1 saved Hnd Hlen.
  - cbn. by rewrite app_nil_r.
  - cbn [zip_with]. rewrite written_cons.
    replace (fs1 ++ f :: fs2) with ((fs1 ++ [f]) ++ fs2) in * by (by rewrite <- (assoc_L (++))).
    destruct (json.omitted (f, v)) eqn:Hom.
    + rewrite (omitted_zero f v Hfv Hom).
      replace (vs1 ++ zeros (f :: fs2)) with ((vs1 ++ [reflect.Zero (reflect.FieldKind f)]) ++ zeros fs2)
        by (by rewrite <- (assoc_L (++))).
      rewrite (IH (fs1 ++ [f]) (vs1 ++ [reflect.Zero (reflect.FieldKind f)]) saved Hnd)
        by (rewrite !length_app; cbn; lia).
      by rewrite <- (assoc_L (++)).
    + cbn [fmap list_fmap json.object fst snd].
      assert (((fs1 ++ [f]) ++ fs2) !! length fs1 = Some f) as Hf.
      { rewrite <- (assoc_L (++)). cbn [app]. by apply list_lookup_middle. }
      rewrite (findField_exact _ _ _ Hnd Hf), Hf.
      assert ((vs1 ++ zeros (f :: fs2)) !! length fs1
              = Some (reflect.Zero (reflect.FieldKind f))) as ->.
      { unfold zeros. cbn [fmap list_fmap]. by apply list_lookup_middle. }
      rewrite literalStore_json_of by done.
      assert (<[length fs1 := v]> (vs1 ++ zeros (f :: fs2)) = (vs1 ++ [v]) ++ zeros fs2) as ->.
      { rewrite Hlen, insert_app_r_alt, Nat.sub_diag by lia. cbn.
        by rewrite <- (assoc_L (++)). }
      rewrite (IH (fs1 ++ [f]) (vs1 ++ [v]) saved Hnd) by (rewrite !length_app; cbn; lia).
      by rewrite <- (assoc_L (++)).
Qed.

(** ** Decoding an encoded object *)

Lemma emitted_written o :
  json.emitted o = written (zip (reflect.Fields (reflect.TypeOf o)) (reflect.FieldValues o)).
Proof. reflexivity. Qed.

Lemma Forall_written (P : reflect.StructField -> Prop) fs vs :
  Forall P fs -> Forall (fun fv => P fv.1) (written (zip fs vs)).
Proof.
  intros Hfs. revert vs. induction Hfs as [|f fs Hf _ IH]; intros [|v vs]; try by constructor.
  cbn [zip_with]. rewrite written_cons. destruct (json.omitted (f, v)); [apply IH|].
  constructor; [done|apply IH].
Qed.

Lemma blob_text_magic typ fvs : exists rest, blob_text typ fvs = schema.magic ++ rest.
Proof. eexists. reflexivity. Qed.

Lemma decodeType_small r :
  io.final r = io.EOF -> (lenN (io.pending r) < schema.maxSize)%N ->
  schema.decodeType r
  = (match json.Unmarshal (io.pending r) (reflect.New schema.header) with
     | inl err => inl (schema.ErrJSON err)
     | inr h => inr (schema.header_Type h, io.pending r)
     end, io.mkReader [] io.EOF).
Proof.
  intros Hfin Hlt. unfold schema.decodeType, io.ReadAll, io.LimitReader. cbn [io.lr_R io.lr_N].
  rewrite (proj2 (N.leb_gt _ _)) by done. rewrite takeN_all by lia. rewrite Hfin.
  cbn [io.lr_R]. rewrite (proj2 (N.eqb_neq _ _)) by lia.
  by destruct (json.Unmarshal _ _).
Qed.

(** The header of a blob gives the type name that was written. *)
Lemma Unmarshal_header typ fvs :
  plain typ ->
  Forall (fun fv => plain (reflect.Name fv.1)
                    /\ json.equalFold (reflect.Name fv.1) schema.typeField = false) fvs ->
  json.Unmarshal (blob_text typ fvs) (reflect.New schema.header)
  = inr (reflect.mkStruct schema.header [reflect.VString typ]).
Proof.
  intros Htyp Hfvs. unfold json.Unmarshal.
  rewrite parse_blob_text; [|done|by eapply Forall_impl; [exact Hfvs|]; intros ? [? ?]].
  cbn [reflect.New reflect.TypeOf reflect.FieldValues schema.header reflect.Fields
       fmap list_fmap reflect.FieldKind reflect.Zero].
  cbn [json.object fst snd].
  change (json.findField [reflect.mkField schema.typeField reflect.String false] schema.typeField)
    with (Some 0).
  cbn [lookup list_lookup json.literalStore reflect.FieldKind insert list_insert].
  rewrite object_skip; [done|].
  apply Forall_fmap. eapply Forall_impl; [exact Hfvs|]. intros fv [_ Hfold]. cbn [fst].
  apply findField_None. constructor; [|constructor]. cbn [reflect.Name].
  by rewrite equalFold_sym.
Qed.

(** The body of a blob gives the object that was written. *)
Lemma Unmarshal_blob typ o :
  wf_type (reflect.TypeOf o) -> wf_object o -> plain typ ->
  json.Unmarshal (blob_text typ (json.emitted o)) (reflect.New (reflect.TypeOf o)) = inr o.
Proof.
  intros [Hnd Hkeys] [Hkinds _] Htyp. unfold json.Unmarshal.
  rewrite parse_blob_text;
    [|done|rewrite emitted_written;
           apply (Forall_written (fun f => plain (reflect.Name f)));
           by eapply Forall_impl; [exact Hkeys|]; intros ? [? ?]].
  cbn [reflect.New reflect.TypeOf reflect.FieldValues json.object fst snd].
  rewrite findField_None
    by (by eapply Forall_impl; [exact Hkeys|]; intros ? [? ?]).
  rewrite emitted_written.
  pose proof (object_fields _ _ Hkinds [] [] None) as Hobj. cbn [app length] in Hobj.
  unfold zeros in Hobj. rewrite Hobj by done. by destruct o.
Qed.

(** The blob of a well-formed object decodes to the object. *)
Lemma Decode_blob reg o :
  registered reg (reflect.TypeOf o) ->
  wf_type (reflect.TypeOf o) ->
  wf_object o ->
  json.emitted o <> [] ->
  exists typ,
    schema.TypeOf reg o = inr typ
    /\ encoded reg o = Some (blob_text typ (json.emitted o))
    /\ ((lenN (blob_text typ (json.emitted o)) < schema.maxSize)%N ->
        schema.Decode reg (io.mkReader (blob_text typ (json.emitted o)) io.EOF) = inr o).
Proof.
  intros (name & Htn & Htm & Hname) Hwt Hwo Hem.
  assert (schema.TypeOf reg o = inr name) as Htyp by (unfold schema.TypeOf; by rewrite Htn).
  exists name. split; [done|].
  destruct (json.emitted o) as [|fv fvs] eqn:Hfvs; [done|].
  split; [by apply encoded_blob_text|].
  intros Hsize. unfold schema.Decode.
  rewrite checkSchema_ok
    by (cbn [io.pending]; destruct (blob_text_magic name (fv :: fvs)) as [rest ->];
        apply IsSchema_magic_app).
  unfold schema.DecodeJSON, schema.decode. rewrite decodeType_small by done.
  cbn [io.pending]. rewrite <- Hfvs.
  rewrite Unmarshal_header; [|done|].
  - cbn [schema.header_Type reflect.FieldValues]. unfold schema.NewType. rewrite Htm.
    by rewrite Unmarshal_blob.
  - rewrite emitted_written.
    apply (Forall_written (fun f => plain (reflect.Name f)
                                    /\ json.equalFold (reflect.Name f) schema.typeField = false)).
    by destruct Hwt.
Qed.



Lemma TransformOp_wf : wf_type schema.TransformOp.
Proof.
  split.
  - apply (bool_decide_unpack _). by vm_compute.
  - repeat constructor; try (apply (bool_decide_unpack _); by vm_compute); by vm_compute.
Qed.



(** *** Where the round trip fails *)






(** For an object without written fields [Encode] puts its comma in the
    place of the opening brace of [{}]: the blob ends with a comma and a
    closing brace, and is no JSON document. *)
Lemma Decode_Encode_no_fields :
  let reg := schema.registerCAS (reflect.New Marker) schema.empty_registry in
  encoded reg (reflect.New Marker)
  = Some (schema.magic ++ [SP] ++ quoted "cas:Marker" ++ [COMMA; RBRACE; NL])
  /\ schema.Decode reg
       (io.mkReader (schema.magic ++ [SP] ++ quoted "cas:Marker" ++ [COMMA; RBRACE; NL]) io.EOF)
     = inl (schema.ErrCannotDecode (schema.ErrJSON json.SyntaxError)).
Proof. split; by vm_compute. Qed.

(** Two types registered under one name: the name leads to the type that
    was registered last, and the blob of the other one decodes to it. *)
Lemma Decode_Encode_rebound_name :
  let reg := schema.RegisterName (bs "x") (reflect.New schema.TransformOp)
               (schema.RegisterName (bs "x") (reflect.New Note) schema.empty_registry) in
  let o := reflect.mkStruct Note [reflect.VString (bs "hello")] in
  exists p,
    encoded reg o = Some p
    /\ schema.Decode reg (io.mkReader p io.EOF) = inr (reflect.New schema.TransformOp).
Proof.
  intros reg o. eexists. split; [vm_compute; reflexivity|]. vm_compute. reflexivity.
Qed.

(** *** The scenario of the transform record *)

Lemma init_registered :
  registered (schema.init schema.empty_registry) schema.TransformOp.
Proof.
  exists (bs "cas:TransformOp"). split; [by vm_compute|]. split; [by vm_compute|].
  apply (bool_decide_unpack _). by vm_compute.
Qed.

(** The text of a reference needs no escapes. *)
Lemma escape_hex l : flat_map (json.escape_byte false) (types.hex l) = types.hex l.
Proof.
  induction l as [|b l IH]; [done|]. cbn [types.hex flat_map]. rewrite IH.
  by destruct b.
Qed.

(** X1. A transform record with the references [a], [b] and [c], each of
    the width of a digest, is encoded under the registry that [init]
    leaves, its blob decodes, and [References] on the decoded object
    gives [a], [b] and [c] in this order. *)
Lemma TransformOp_References a b c :
  types.valid a -> types.valid b -> types.valid c ->
  exists p o,
    encoded (schema.init schema.empty_registry) (schema.mkTransformOp a b c) = Some p
    /\ schema.Decode (schema.init schema.empty_registry) (io.mkReader p io.EOF) = inr o
    /\ schema.References o = [a; b; c].
Proof.
  intros Ha Hb Hc.
  destruct (Decode_blob (schema.init schema.empty_registry) (schema.mkTransformOp a b c))
    as (typ & Htyp & Henc & Hdec).
  - apply init_registered.
  - apply TransformOp_wf.
  - split; repeat constructor; done.
  - done.
  - exists (blob_text typ (json.emitted (schema.mkTransformOp a b c))),
           (schema.mkTransformOp a b c).
    split; [exact Henc|]. split; [|reflexivity]. apply Hdec.
    assert (typ = bs "cas:TransformOp") as ->
      by (vm_compute in Htyp; injection Htyp as <-; reflexivity).
    unfold lenN, blob_text, members_text, member_text.
    cbn [json.emitted schema.mkTransformOp reflect.TypeOf reflect.FieldValues reflect.Fields
         schema.TransformOp zip_with List.filter json.omitted reflect.OmitEmpty fst snd
         andb negb fmap list_fmap flat_map field_member type_member reflect.Name
         json.encode_value].
    unfold json.quote, types.String.
    rewrite !escape_hex.
    repeat (rewrite ?length_app, ?hex_length; cbn [length]).
    unfold types.valid, types.Size in *. rewrite Ha, Hb, Hc. by vm_compute.
Qed.

Lemma TransformOp_References_witness :
  exists p o,
    encoded (schema.init schema.empty_registry)
            (schema.mkTransformOp (types.mkRef (replicate 32 x0a))
                                  (types.mkRef (replicate 32 x0b))
                                  (types.mkRef (replicate 32 x0c))) = Some p
    /\ schema.Decode (schema.init schema.empty_registry) (io.mkReader p io.EOF) = inr o
    /\ schema.References o
       = [types.mkRef (replicate 32 x0a); types.mkRef (replicate 32 x0b);
          types.mkRef (replicate 32 x0c)].
Proof.
  apply (TransformOp_References (types.mkRef (replicate 32 x0a))
           (types.mkRef (replicate 32 x0b)) (types.mkRef (replicate 32 x0c)));
    reflexivity.
Defined.

(** *** A stream that goes on after the limit *)

Lemma takeN_app_exact {A} (n : N) (l k : list A) : lenN l = n -> takeN n (l ++ k) = l.
Proof. unfold lenN. intros <-. rewrite takeN_take, Nat2N.id. by apply take_app_length'. Qed.

Lemma dropN_app_exact {A} (n : N) (l k : list A) : lenN l = n -> dropN n (l ++ k) = k.
Proof. unfold lenN. intros <-. rewrite dropN_drop, Nat2N.id. by apply drop_app_length'. Qed.

Lemma padding_size : lenN padding = schema.maxSize.
Proof.
  unfold lenN, padding. rewrite length_app, length_replicate, length_magic, MagicSize_eq.
  unfold schema.maxSize. lia.
Qed.

Lemma padding_magic : exists rest, padding = schema.magic ++ rest.
Proof. by eexists. Qed.

(** After 16 MiB [decodeType] stops reading and fails; the reader that
    [PeekType] returns then delivers what follows the 16 MiB, and nothing
    of what was read. *)
Lemma PeekType_beyond_limit blob :
  schema.PeekType (io.mkReader (padding ++ blob) io.EOF)
  = (Some (io.mkReader blob io.EOF), [], Some schema.ErrTooLarge).
Proof.
  unfold schema.PeekType. rewrite checkSchema_ok.
  2:{ cbn [io.pending]. destruct padding_magic as [rest ->].
      rewrite <- (assoc_L (++)). apply IsSchema_magic_app. }
  unfold schema.decodeType, io.ReadAll, io.LimitReader. cbn [io.lr_R io.lr_N io.pending io.final].
  assert (schema.maxSize <= lenN (padding ++ blob))%N as Hle
      by (rewrite lenN_app, padding_size; lia).
  apply N.leb_le in Hle. rewrite Hle.
  rewrite takeN_app_exact, dropN_app_exact by apply padding_size.
  rewrite padding_size, N.eqb_refl. reflexivity.
Qed.

(** [Decode] refuses the stream of the padding and the blob of [an_op] as
    too large; [Decode] on the reader that [PeekType] returns for this
    stream yields [an_op]. *)
Lemma PeekType_other_object :
  exists blob r',
    encoded (schema.init schema.empty_registry) an_op = Some blob
    /\ schema.PeekType (io.mkReader (padding ++ blob) io.EOF)
       = (Some r', [], Some schema.ErrTooLarge)
    /\ schema.Decode (schema.init schema.empty_registry) r' = inr an_op
    /\ schema.Decode (schema.init schema.empty_registry) (io.mkReader (padding ++ blob) io.EOF)
       = inl (schema.ErrCannotDecode schema.ErrTooLarge).
Proof.
  eexists _, _. split; [vm_compute; reflexivity|].
  split; [apply PeekType_beyond_limit|]. split; [vm_compute; reflexivity|].
  unfold schema.Decode, schema.DecodeJSON, schema.decode. rewrite checkSchema_ok.
  2:{ cbn [io.pending]. destruct padding_magic as [rest ->].
      rewrite <- (assoc_L (++)). apply IsSchema_magic_app. }
  match goal with
  | |- context [schema.decodeType ?r] =>
      pose proof (decodeType_too_large r) as Hbig; destruct (schema.decodeType r) as [res r']
  end.
  cbn [fst io.pending] in Hbig. rewrite Hbig; [done|].
  rewrite lenN_app, padding_size. lia.
Qed.

(** *** Names and keys that break the layout *)

(** [Encode] writes the type name as it is: a name with a double quote
    ends the string early, and the blob is no JSON document. *)
Lemma Decode_Encode_quote_in_name :
  let reg := schema.RegisterName (bs "my" ++ [QUOTE] ++ bs "note") (reflect.New Note)
               schema.empty_registry in
  let o := reflect.mkStruct Note [reflect.VString (bs "hello")] in
  exists p,
    encoded reg o = Some p
    /\ schema.Decode reg (io.mkReader p io.EOF)
       = inl (schema.ErrCannotDecode (schema.ErrJSON json.SyntaxError)).
Proof.
  intros reg o. eexists. split; [vm_compute; reflexivity|]. vm_compute. reflexivity.
Qed.

(** A field whose key is [@type] up to the case of letters is taken for
    the type name when the header is read. *)
Lemma Decode_Encode_type_key :
  let Tagged := reflect.mkType (bs "Tagged")
                  [reflect.mkField (bs "@Type") reflect.String false] in
  let reg := schema.registerCAS (reflect.New Tagged) schema.empty_registry in
  let o := reflect.mkStruct Tagged [reflect.VString (bs "blue")] in
  exists p,
    encoded reg o = Some p
    /\ schema.Decode reg (io.mkReader p io.EOF)
       = inl (schema.ErrCannotDecode (schema.ErrUnsupportedType (bs "blue"))).
Proof.
  intros Tagged reg o. eexists. split; [vm_compute; reflexivity|]. vm_compute. reflexivity.
Qed.

(* ===================================================================== *)
(** * Part II, continued: what else the code shows                         *)
(* ===================================================================== *)

(** ** [Encode] into any writer *)



(** ** The type name of a blob *)

Lemma emitted_keys o :
  wf_type (reflect.TypeOf o) ->
  Forall (fun fv => plain (reflect.Name fv.1)
                    /\ json.equalFold (reflect.Name fv.1) schema.typeField = false)
         (json.emitted o).
Proof.
  intros [_ Hkeys]. rewrite emitted_written.
  by apply (Forall_written (fun f => plain (reflect.Name f)
                                     /\ json.equalFold (reflect.Name f) schema.typeField = false)).
Qed.

(** The header and the data of a blob, as [decodeType] reads them. *)
Lemma decodeType_blob typ fvs :
  plain typ ->
  Forall (fun fv => plain (reflect.Name fv.1)
                    /\ json.equalFold (reflect.Name fv.1) schema.typeField = false) fvs ->
  (lenN (blob_text typ fvs) < schema.maxSize)%N ->
  schema.decodeType (io.mkReader (blob_text typ fvs) io.EOF)
  = (inr (typ, blob_text typ fvs), io.mkReader [] io.EOF).
Proof.
  intros Htyp Hfvs Hsize. rewrite decodeType_small by done.
  cbn [io.pending]. by rewrite Unmarshal_header.
Qed.

Lemma checkSchema_blob typ fvs :
  schema.checkSchema (io.mkReader (blob_text typ fvs) io.EOF)
  = inr (io.mkReader (blob_text typ fvs) io.EOF).
Proof.
  apply checkSchema_ok. cbn [io.pending].
  destruct (blob_text_magic typ fvs) as [rest ->]. apply IsSchema_magic_app.
Qed.

Lemma op_name_plain : plain (bs "cas:TransformOp").
Proof. apply (bool_decide_unpack _). by vm_compute. Qed.

Lemma op_blob_encoded :
  encoded (schema.init schema.empty_registry) an_op = Some op_blob.
Proof. by vm_compute. Qed.

Lemma op_blob_size : (lenN op_blob < schema.maxSize)%N.
Proof. by vm_compute. Qed.

(** X3. [DecodeType] and [PeekType] find the name [Encode] wrote.  For an
    object whose type is registered under a name of plain text, whose
    keys are plain text other than [@type] in any case of letters, and of
    which at least one field is written, [Encode] writes a blob; if the
    blob is shorter than 16 MiB, [DecodeType] on it returns the registered
    name, and [PeekType] returns this name and a reader over the whole
    blob.  Neither needs the name to lead back to the type. *)
Theorem DecodeType_Encode (reg : schema.Registry) (o : schema.Object) (typ : bytes) :
  schema.TypeOf reg o = inr typ ->
  plain typ ->
  wf_type (reflect.TypeOf o) ->
  json.emitted o <> [] ->
  exists p,
    encoded reg o = Some p
    /\ ((lenN p < schema.maxSize)%N ->
        schema.DecodeType (io.mkReader p io.EOF) = inr typ
        /\ schema.PeekType (io.mkReader p io.EOF) = (Some (io.mkReader p io.EOF), typ, None)).
Proof.
  intros Htyp Hplain Hwt Hem. destruct (json.emitted o) as [|fv fvs] eqn:Hfvs; [done|].
  exists (blob_text typ (fv :: fvs)). split; [by apply encoded_blob_text|].
  intros Hsize. pose proof (emitted_keys o Hwt) as Hkeys. rewrite Hfvs in Hkeys.
  unfold schema.DecodeType, schema.PeekType.
  rewrite checkSchema_blob, decodeType_blob by done. split; [done|].
  unfold io.MultiReader, io.NewReader. cbn. by rewrite app_nil_r.
Qed.

Lemma DecodeType_Encode_witness :
  exists p,
    encoded (schema.init schema.empty_registry) an_op = Some p
    /\ (lenN p < schema.maxSize)%N
    /\ schema.DecodeType (io.mkReader p io.EOF) = inr (bs "cas:TransformOp")
    /\ schema.PeekType (io.mkReader p io.EOF)
       = (Some (io.mkReader p io.EOF), bs "cas:TransformOp", None).
Proof.
  destruct (DecodeType_Encode (schema.init schema.empty_registry) an_op (bs "cas:TransformOp"))
    as (p & Henc & Hdec).
  - vm_compute. reflexivity.
  - exact op_name_plain.
  - exact TransformOp_wf.
  - vm_compute. discriminate.
  - exists p. split; [exact Henc|].
    assert (lenN p < schema.maxSize)%N as Hsize.
    { rewrite op_blob_encoded in Henc. injection Henc as <-. exact op_blob_size. }
    split; [exact Hsize|]. exact (Hdec Hsize).
Defined.

(** X4. A blob whose type name the registry does not know is refused by
    name.  For an object as in X3, encoded under one registry: [Decode]
    under a registry whose [typesMap] lacks the name fails with "cannot
    decode schema object: unsupported schema type" and the name, whatever
    the fields hold. *)
Theorem Decode_unknown_type (reg reg' : schema.Registry) (o : schema.Object) (typ : bytes) :
  schema.TypeOf reg o = inr typ ->
  plain typ ->
  wf_type (reflect.TypeOf o) ->
  json.emitted o <> [] ->
  schema.typesMap reg' !! typ = None ->
  exists p,
    encoded reg o = Some p
    /\ ((lenN p < schema.maxSize)%N ->
        schema.Decode reg' (io.mkReader p io.EOF)
        = inl (schema.ErrCannotDecode (schema.ErrUnsupportedType typ))).
Proof.
  intros Htyp Hplain Hwt Hem Hnone. destruct (json.emitted o) as [|fv fvs] eqn:Hfvs; [done|].
  exists (blob_text typ (fv :: fvs)). split; [by apply encoded_blob_text|].
  intros Hsize. pose proof (emitted_keys o Hwt) as Hkeys. rewrite Hfvs in Hkeys.
  unfold schema.Decode, schema.DecodeJSON, schema.decode.
  rewrite checkSchema_blob, decodeType_blob by done.
  unfold schema.NewType. by rewrite Hnone.
Qed.

Lemma Decode_unknown_type_witness :
  exists p,
    encoded (schema.init schema.empty_registry) an_op = Some p
    /\ (lenN p < schema.maxSize)%N
    /\ schema.Decode schema.empty_registry (io.mkReader p io.EOF)
       = inl (schema.ErrCannotDecode (schema.ErrUnsupportedType (bs "cas:TransformOp"))).
Proof.
  destruct (Decode_unknown_type (schema.init schema.empty_registry) schema.empty_registry
              an_op (bs "cas:TransformOp"))
    as (p & Henc & Hdec).
  - vm_compute. reflexivity.
  - exact op_name_plain.
  - exact TransformOp_wf.
  - vm_compute. discriminate.
  - reflexivity.
  - exists p. split; [exact Henc|].
    assert (lenN p < schema.maxSize)%N as Hsize.
    { rewrite op_blob_encoded in Henc. injection Henc as <-. exact op_blob_size. }
    split; [exact Hsize|]. exact (Hdec Hsize).
Defined.

(** ** [Decode], [DecodeJSON] and [DecodeType] *)

(** X5. [Decode] is [DecodeJSON] behind the check of the magic: it yields
    an object exactly when the stream starts with the magic and
    [DecodeJSON] yields this object from the same stream. *)
Theorem Decode_DecodeJSON (reg : schema.Registry) (r : io.Reader) (o : schema.Object) :
  schema.Decode reg r = inr o
  <-> schema.IsSchema (io.pending r) = true /\ schema.DecodeJSON reg r = inr o.
Proof.
  unfold schema.Decode. split.
  - destruct (schema.checkSchema r) as [e|r'] eqn:Hc; [done|].
    apply checkSchema_inr in Hc as [Hs ->]. done.
  - intros [Hs Hd]. by rewrite checkSchema_ok.
Qed.

(** [json.Unmarshal] fills the struct it is given: the type stays. *)
Lemma Unmarshal_TypeOf data o o' :
  json.Unmarshal data o = inr o' -> reflect.TypeOf o' = reflect.TypeOf o.
Proof.
  unfold json.Unmarshal. destruct (json.parse data) as [[]|]; try done.
  - by intros [= <-].
  - destruct (json.object _ _ _ _) as [e|[vals [e|]]]; try done. by intros [= <-].
Qed.

(** X6. The object [Decode] returns has the type of its name: whenever
    [Decode] yields an object, [DecodeType] on the same stream yields a
    name, [typesMap] binds this name to the type of the object, and
    [NewType] of the name gives the zero object of this type. *)
Theorem Decode_DecodeType (reg : schema.Registry) (r : io.Reader) (o : schema.Object) :
  schema.Decode reg r = inr o ->
  exists typ,
    schema.DecodeType r = inr typ
    /\ schema.typesMap reg !! typ = Some (reflect.TypeOf o)
    /\ schema.NewType reg typ = inr (reflect.New (reflect.TypeOf o)).
Proof.
  unfold schema.Decode, schema.DecodeType, schema.DecodeJSON, schema.decode, schema.NewType.
  destruct (schema.checkSchema r) as [e|r'] eqn:Hc; [done|].
  destruct (schema.decodeType r') as [[e|[typ data]] r2]; [done|].
  destruct (schema.typesMap reg !! typ) as [rt|] eqn:Hrt; [|done].
  destruct (json.Unmarshal data (reflect.New rt)) as [e|o'] eqn:Hu; [done|].
  intros Ho. injection Ho as Ho. subst o'. apply Unmarshal_TypeOf in Hu. cbn in Hu. subst rt.
  exists typ. by rewrite Hrt.
Qed.

Lemma Decode_DecodeType_witness :
  exists typ,
    schema.DecodeType (io.mkReader op_blob io.EOF) = inr typ
    /\ schema.typesMap (schema.init schema.empty_registry) !! typ = Some (reflect.TypeOf an_op)
    /\ schema.NewType (schema.init schema.empty_registry) typ
       = inr (reflect.New (reflect.TypeOf an_op)).
Proof.
  apply (Decode_DecodeType (schema.init schema.empty_registry) (io.mkReader op_blob io.EOF) an_op).
  vm_compute. reflexivity.
Defined.

(** ** [checkSchema] and the errors of the stream *)

(** X7. [checkSchema] accepts a stream exactly when its pending bytes pass
    [IsSchema], and the reader it returns is then the stream as it was
    given: the bytes read for the check are delivered again, and the
    stream ends as it would have. *)
Theorem checkSchema_replays (r r' : io.Reader) :
  schema.checkSchema r = inr r'
  <-> schema.IsSchema (io.pending r) = true /\ r' = r.
Proof.
  split; [apply checkSchema_inr|]. intros [Hs ->]. by apply checkSchema_ok.
Qed.

(** X8. A stream that fails with an error other than the end of input
    before [MagicSize] bytes were read is not reported as "not a schema
    file": [Decode], [DecodeType] and [PeekType] return "cannot check
    schema object" with the error of the stream, and [PeekType] returns
    no reader. *)
Theorem Decode_cannot_check (reg : schema.Registry) (r : io.Reader) (code : N) :
  length (io.pending r) < schema.MagicSize ->
  io.final r = io.Failure code ->
  schema.Decode reg r = inl (schema.ErrCannotCheck (io.Failure code))
  /\ schema.DecodeType r = inl (schema.ErrCannotCheck (io.Failure code))
  /\ schema.PeekType r = (None, [], Some (schema.ErrCannotCheck (io.Failure code))).
Proof.
  intros Hlt Hfin. pose proof (checkSchema_failure r code Hlt Hfin) as Hc.
  unfold schema.Decode, schema.DecodeType, schema.PeekType. by rewrite Hc.
Qed.

Lemma Decode_cannot_check_witness :
  schema.Decode schema.empty_registry torn = inl (schema.ErrCannotCheck (io.Failure 5))
  /\ schema.DecodeType torn = inl (schema.ErrCannotCheck (io.Failure 5))
  /\ schema.PeekType torn = (None, [], Some (schema.ErrCannotCheck (io.Failure 5))).
Proof.
  apply (Decode_cannot_check schema.empty_registry torn 5).
  - vm_compute. lia.
  - reflexivity.
Defined.

Lemma decodeType_read_error r :
  (lenN (io.pending r) < schema.maxSize)%N -> io.final r <> io.EOF ->
  schema.decodeType r = (inl (schema.ErrIO (io.final r)), io.mkReader [] (io.final r)).
Proof.
  intros Hlt Hfin. unfold schema.decodeType, io.ReadAll, io.LimitReader. cbn [io.lr_R io.lr_N].
  rewrite (proj2 (N.leb_gt _ _)) by done. cbn [io.lr_R].
  by destruct (io.final r).
Qed.

(** X9. A stream that starts with the magic and fails before 16 MiB were
    read with an error other than the end of input is refused with this
    error, whatever its bytes are: [DecodeType] returns the error of the
    stream, [Decode] returns it as the cause of "cannot decode schema
    object". *)
Theorem Decode_read_error (reg : schema.Registry) (r : io.Reader) :
  schema.IsSchema (io.pending r) = true ->
  (lenN (io.pending r) < schema.maxSize)%N ->
  io.final r <> io.EOF ->
  schema.Decode reg r = inl (schema.ErrCannotDecode (schema.ErrIO (io.final r)))
  /\ schema.DecodeType r = inl (schema.ErrIO (io.final r)).
Proof.
  intros Hs Hlt Hfin.
  unfold schema.Decode, schema.DecodeType, schema.DecodeJSON, schema.decode.
  by rewrite checkSchema_ok, decodeType_read_error.
Qed.

Lemma Decode_read_error_witness :
  schema.Decode (schema.init schema.empty_registry) failing_blob
  = inl (schema.ErrCannotDecode (schema.ErrIO (io.Failure 5)))
  /\ schema.DecodeType failing_blob = inl (schema.ErrIO (io.Failure 5)).
Proof.
  apply (Decode_read_error (schema.init schema.empty_registry) failing_blob).
  - vm_compute. reflexivity.
  - vm_compute. reflexivity.
  - discriminate.
Defined.

(** ** [PeekType] after a failure *)

(** What [decodeType] leaves of the stream when it fails. *)
Lemma decodeType_inl r e r' :
  schema.decodeType r = (inl e, r') ->
  r' = io.mkReader (dropN schema.maxSize (io.pending r)) (io.final r).
Proof.
  unfold schema.decodeType, io.ReadAll, io.LimitReader. cbn [io.lr_R io.lr_N].
  destruct (N.leb_spec schema.maxSize (lenN (io.pending r))) as [Hle|Hlt].
  - rewrite lenN_takeN, N.min_l, N.eqb_refl by done. by intros [= _ <-].
  - rewrite takeN_all, dropN_all by lia. cbn [io.lr_R].
    destruct (io.final r); [|by intros [= _ <-]..].
    rewrite (proj2 (N.eqb_neq _ _)) by lia.
    destruct (json.Unmarshal _ _); [by intros [= _ <-]|done].
Qed.

(** X10. When [PeekType] returns an error, the type it returns is empty,
    and its reader is either nil, the magic having failed with this
    error, or a reader that has lost the first 16 MiB of the stream (all
    of a shorter stream): the stream then starts with the magic, and the
    error is the one [DecodeType] returns. *)
Theorem PeekType_error (r : io.Reader) (ro : option io.Reader) (typ : bytes)
        (e : schema.error) :
  schema.PeekType r = (ro, typ, Some e) ->
  typ = []
  /\ ((ro = None /\ schema.checkSchema r = inl e)
      \/ (ro = Some (io.mkReader (dropN schema.maxSize (io.pending r)) (io.final r))
          /\ schema.IsSchema (io.pending r) = true
          /\ schema.DecodeType r = inl e)).
Proof.
  unfold schema.PeekType, schema.DecodeType.
  destruct (schema.checkSchema r) as [e'|r1] eqn:Hc.
  - intros [= <- <- <-]. split; [done|]. by left.
  - apply checkSchema_inr in Hc as [Hs ->].
    destruct (schema.decodeType r) as [[e'|[typ' data]] r2] eqn:Hd; [|done].
    apply decodeType_inl in Hd as ->. intros [= <- <- <-]. split; [done|]. right.
    split; [|done]. unfold io.MultiReader, io.NewReader. cbn. done.
Qed.

Lemma PeekType_error_witness :
  [] = ([] : bytes)
  /\ ((Some (io.mkReader [] io.EOF) = None
       /\ schema.checkSchema broken_blob = inl (schema.ErrJSON json.SyntaxError))
      \/ (Some (io.mkReader [] io.EOF)
          = Some (io.mkReader (dropN schema.maxSize (io.pending broken_blob))
                              (io.final broken_blob))
          /\ schema.IsSchema (io.pending broken_blob) = true
          /\ schema.DecodeType broken_blob = inl (schema.ErrJSON json.SyntaxError))).
Proof.
  apply (PeekType_error broken_blob (Some (io.mkReader [] io.EOF)) []
           (schema.ErrJSON json.SyntaxError)).
  vm_compute. reflexivity.
Defined.

(** ** An object without written fields *)

Lemma parse_value_bare_text typ fuel :
  plain typ -> json.parse_value (S (S (S fuel))) (bare_text typ) = json.Invalid.
Proof.
  intros Htyp. unfold bare_text.
  change schema.magic with ([LBRACE; NL; SP; QUOTE] ++ schema.typeField ++ [QUOTE; COLON]).
  repeat (progress (rewrite <- ?(assoc_L (++)); cbn [app])).
  cbn [json.parse_value json.skip_space].
  change (json.is_space LBRACE) with false. cbv iota.
  change (Byte.eqb LBRACE LBRACE) with true. cbv iota.
  change (json.is_space NL) with true. change (json.is_space SP) with true.
  change (json.is_space QUOTE) with false. cbv iota.
  change (Byte.eqb QUOTE RBRACE) with false. cbv iota.
  cbn [json.parse_members json.skip_space].
  change (json.is_space NL) with true. change (json.is_space SP) with true.
  change (json.is_space QUOTE) with false. cbv iota.
  change (Byte.eqb QUOTE QUOTE) with true. cbv iota.
  rewrite scan_string_plain by (apply (bool_decide_unpack _); by vm_compute).
  cbn [json.skip_space]. change (json.is_space COLON) with false. cbv iota.
  change (Byte.eqb COLON COLON) with true. cbv iota.
  rewrite parse_value_SP.
  pose proof (raw_string_reads_as typ Htyp (S fuel) [COMMA; RBRACE; NL]) as Hv.
  cbn [app] in Hv. rewrite <- (assoc_L (++)) in Hv. cbn [app] in Hv.
  rewrite Hv by (first [done | eexists _, _; eauto]).
  reflexivity.
Qed.

(** The text is no JSON document: a closing brace follows the comma. *)
Lemma parse_bare_text typ : plain typ -> json.parse (bare_text typ) = None.
Proof.
  intros Htyp. unfold json.parse, json.fuel_for.
  replace (2 * length (bare_text typ) + 3) with (S (S (S (2 * length (bare_text typ))))) by lia.
  by rewrite parse_value_bare_text.
Qed.

Lemma encoded_bare_text reg o typ :
  schema.TypeOf reg o = inr typ ->
  json.emitted o = [] ->
  encoded reg o = Some (bare_text typ).
Proof.
  intros Htyp Hem. unfold encoded, schema.Encode. rewrite Htyp.
  change (json.SetEscapeHTML _ false) with enc0.
  unfold json.Encode. rewrite Hem. cbv zeta.
  set (buf := ((schema.magic ++ [SP; QUOTE]) ++ typ) ++ [QUOTE]).
  rewrite decide_True by (rewrite length_app; cbn [length]; lia).
  rewrite insert_app_r_alt, Nat.sub_diag by lia. cbn [insert list_insert].
  unfold io.Write. cbn [io.broken io.written io.Buffer app]. f_equal.
  unfold buf, bare_text. by rewrite <- !(assoc_L (++)).
Qed.

(** X11. An object of which no field is written (a struct without fields,
    or one whose fields are all dropped by [omitempty]) is encoded
    without error, but its blob cannot be decoded: [Encode] puts its
    comma over the opening brace of the empty object, the blob ends with
    a comma and a closing brace, and, the type name being plain text and
    the blob shorter than 16 MiB, [DecodeType] and [Decode] fail on it
    with a syntax error of the JSON parser. *)
Theorem Encode_no_fields (reg : schema.Registry) (o : schema.Object) (typ : bytes) :
  schema.TypeOf reg o = inr typ ->
  json.emitted o = [] ->
  plain typ ->
  (lenN (bare_text typ) < schema.maxSize)%N ->
  encoded reg o = Some (bare_text typ)
  /\ schema.DecodeType (io.mkReader (bare_text typ) io.EOF)
     = inl (schema.ErrJSON json.SyntaxError)
  /\ schema.Decode reg (io.mkReader (bare_text typ) io.EOF)
     = inl (schema.ErrCannotDecode (schema.ErrJSON json.SyntaxError)).
Proof.
  intros Htyp Hem Hplain Hsize. split; [by apply encoded_bare_text|].
  unfold schema.Decode, schema.DecodeType, schema.DecodeJSON, schema.decode.
  rewrite checkSchema_ok by apply IsSchema_magic_app.
  rewrite decodeType_small by done. cbn [io.pending].
  unfold json.Unmarshal. by rewrite parse_bare_text.
Qed.

Lemma Encode_no_fields_witness :
  let reg := schema.registerCAS (reflect.New Marker) schema.empty_registry in
  encoded reg (reflect.New Marker) = Some (bare_text (bs "cas:Marker"))
  /\ schema.DecodeType (io.mkReader (bare_text (bs "cas:Marker")) io.EOF)
     = inl (schema.ErrJSON json.SyntaxError)
  /\ schema.Decode reg (io.mkReader (bare_text (bs "cas:Marker")) io.EOF)
     = inl (schema.ErrCannotDecode (schema.ErrJSON json.SyntaxError)).
Proof.
  intros reg.
  apply (Encode_no_fields reg (reflect.New Marker) (bs "cas:Marker")).
  - vm_compute. reflexivity.
  - vm_compute. reflexivity.
  - apply (bool_decide_unpack _). vm_compute. reflexivity.
  - vm_compute. reflexivity.
Defined.

(** ** The registry *)

(** X12. Registration and lookup.  After [RegisterName(name, o)], [TypeOf]
    and [MustTypeOf] give [name] for every object of the type of [o], and
    [NewType(name)] gives the zero object of this type; objects of other
    types keep the answer of [TypeOf], and other names keep the answer of
    [NewType].  [registerCAS(o)] is this registration under the name
    [cas:] followed by the name of the type. *)
Theorem RegisterName_lookup (reg : schema.Registry) (name : bytes) (o : schema.Object) :
  let reg' := schema.RegisterName name o reg in
  (forall o', reflect.TypeOf o' = reflect.TypeOf o ->
              schema.TypeOf reg' o' = inr name /\ schema.MustTypeOf reg' o' = inr name)
  /\ schema.NewType reg' name = inr (reflect.New (reflect.TypeOf o))
  /\ (forall o', reflect.TypeOf o' <> reflect.TypeOf o ->
                 schema.TypeOf reg' o' = schema.TypeOf reg o')
  /\ (forall name', name' <> name -> schema.NewType reg' name' = schema.NewType reg name')
  /\ schema.registerCAS o reg
     = schema.RegisterName (schema.casNS ++ reflect.TypeName (reflect.TypeOf o)) o reg.
Proof.
  cbv zeta. unfold schema.MustTypeOf, schema.TypeOf, schema.NewType, schema.RegisterName.
  cbn [schema.typesMap schema.typeToName]. split; [|split; [|split; [|split]]].
  - intros o' ->. by rewrite lookup_insert_eq.
  - by rewrite lookup_insert_eq.
  - intros o' Hne. by rewrite lookup_insert_ne.
  - intros name' Hne. by rewrite lookup_insert_ne.
  - reflexivity.
Qed.

Lemma consistent_empty : consistent schema.empty_registry.
Proof. intros rt name Hrt. cbn in Hrt. by rewrite lookup_empty in Hrt. Qed.

(** X13. Registering under a fresh name keeps the registry sound.  If
    every type that has a name is the type its name leads to, and [name]
    is not bound yet, or is bound to the type of [o], then the same holds
    after [RegisterName(name, o)]: no blob written for a registered type
    names another type. *)
Theorem RegisterName_consistent (reg : schema.Registry) (name : bytes) (o : schema.Object) :
  consistent reg ->
  schema.typesMap reg !! name = None
  \/ schema.typesMap reg !! name = Some (reflect.TypeOf o) ->
  consistent (schema.RegisterName name o reg).
Proof.
  intros Hreg Hname rt name'. unfold schema.RegisterName.
  cbn [schema.typesMap schema.typeToName].
  destruct (decide (rt = reflect.TypeOf o)) as [->|Hrt].
  - rewrite lookup_insert_eq. intros [= <-]. by rewrite lookup_insert_eq.
  - rewrite lookup_insert_ne by done. intros Hold. pose proof (Hreg rt name' Hold) as Hback.
    destruct (decide (name' = name)) as [->|Hne].
    + destruct Hname as [Hname|Hname]; congruence.
    + by rewrite lookup_insert_ne.
Qed.

Lemma RegisterName_consistent_witness :
  consistent (schema.RegisterName (bs "cas:Note") (reflect.New Note)
                (schema.init schema.empty_registry)).
Proof.
  apply (RegisterName_consistent (schema.init schema.empty_registry) (bs "cas:Note")
           (reflect.New Note)).
  - apply (RegisterName_consistent schema.empty_registry (bs "cas:TransformOp")
             (reflect.New schema.TransformOp)).
    + exact consistent_empty.
    + left. reflexivity.
  - left. vm_compute. reflexivity.
Defined.

(** ** The handle of a temporary file *)

Lemma Commit_f env s t ref : local.f (local.Commit env s t ref).2 = None.
Proof.
  unfold local.Commit. destruct (local.f t) as [tmp|] eqn:Hf; [|done].
  destruct (local.SaveRefFile env); [done|]. destruct (local.Fchmod env); [done|].
  destruct (local.linkFile _ _ _ _) as [dir err].
  destruct (os.IsExist err); [done|]. destruct err; [done|].
  by destruct (local.addNotIndexed env).
Qed.

Lemma Close_f t : local.f (local.linuxTmpFile_Close t).2 = None.
Proof. unfold local.linuxTmpFile_Close. by destruct (local.f t) eqn:Hf. Qed.

(** X14. [Close] and [Commit] use the handle up.  On a temporary file that
    [Close] was called on, or [Commit] with whatever outcome, every later
    [Commit] returns [os.ErrClosed] and leaves the blob directory as it
    is, [Read], [Write] and [SetWriteDeadline] return [os.ErrClosed],
    [Close] returns nil and changes nothing, and [File] gives nil. *)
Theorem used_up_closed (t' : local.linuxTmpFile) :
  used_up t' ->
  (forall env s ref, local.Commit env s t' ref = (Some os.ErrClosed, s, t'))
  /\ (forall fault p, local.linuxTmpFile_Write fault t' p = ((0%Z, Some os.ErrClosed), t'))
  /\ (forall answer, local.linuxTmpFile_Read answer t' = ([], Some os.ErrClosed))
  /\ (forall answer, local.linuxTmpFile_SetWriteDeadline answer t' = Some os.ErrClosed)
  /\ local.linuxTmpFile_Close t' = (None, t')
  /\ local.linuxTmpFile_File t' = None.
Proof.
  intros Hused. assert (local.f t' = None) as Hf.
  { destruct Hused as [(t & ->)|(env & s & t & ref & ->)]; [apply Close_f|apply Commit_f]. }
  unfold local.Commit, local.linuxTmpFile_Write, local.linuxTmpFile_Read,
    local.linuxTmpFile_SetWriteDeadline, local.linuxTmpFile_Close, local.linuxTmpFile_File.
  rewrite Hf. done.
Qed.

Lemma used_up_closed_witness :
  let t' := (local.Commit late_failures (local.mkStorage []) (staged (bs "hello"))
               (toy_hash (bs "hello"))).2 in
  (forall env s ref, local.Commit env s t' ref = (Some os.ErrClosed, s, t'))
  /\ (forall fault p, local.linuxTmpFile_Write fault t' p = ((0%Z, Some os.ErrClosed), t'))
  /\ (forall answer, local.linuxTmpFile_Read answer t' = ([], Some os.ErrClosed))
  /\ (forall answer, local.linuxTmpFile_SetWriteDeadline answer t' = Some os.ErrClosed)
  /\ local.linuxTmpFile_Close t' = (None, t')
  /\ local.linuxTmpFile_File t' = None.
Proof.
  intros t'. apply (used_up_closed t'). right.
  exists late_failures, (local.mkStorage []), (staged (bs "hello")), (toy_hash (bs "hello")).
  reflexivity.
Defined.

(** ** What [Commit] publishes *)

(** The file after a run of writes holds what was written, in order. *)
Lemma Writes_content ps file :
  Writes ps (local.mkTmp (Some file))
  = local.mkTmp (Some (os.mkFile (os.content file ++ concat ps) (os.perm file))).
Proof.
  revert file. induction ps as [|p ps IH]; intros file.
  - cbn. rewrite app_nil_r. by destruct file.
  - cbn [Writes local.linuxTmpFile_Write local.f os.File_Write snd concat].
    rewrite IH. cbn [os.content os.perm]. by rewrite <- (assoc_L (++)).
Qed.

(** A [Commit] that finds the canonical name free and comes to its link. *)
Lemma Commit_fresh env s tmp ref :
  local.SaveRefFile env = None -> local.Fchmod env = None ->
  local.Linkat_fault env = None ->
  types.String ref ∉ (local.blobDir s).*1 ->
  local.Commit env s (local.mkTmp (Some tmp)) ref
  = (match local.addNotIndexed env with
     | Some err => Some err
     | None => local.Close env
     end,
     local.mkStorage
       (local.blobDir s ++ [(types.String ref, os.mkFile (os.content tmp) local.roPerm)]),
     local.mkTmp None).
Proof.
  intros Hsave Hch Hfault Hnot. unfold local.Commit. cbn [local.f]. rewrite Hsave, Hch, Hfault.
  destruct (linkFile_cases None (local.blobDir s) (types.String ref)
              (os.mkFile (os.content tmp) local.roPerm))
    as [(? & ? & _)|[(_ & Hin & _)|(_ & _ & ->)]]; [done|done|].
  cbn. by destruct (local.addNotIndexed env).
Qed.

(** X15. What is published is what was written.  After the writes [ps] to
    a new temporary file, none of which failed, a [Commit] that finds the
    canonical name free and whose [SaveRefFile], [Fchmod] and [Linkat]
    succeed adds one entry to the blob directory: the canonical name of
    the reference, bound to the bytes of [ps] in the order they were
    written, with the mode 0444, also when [addNotIndexed] or the final
    [Close] then fails. *)
Theorem Write_Commit (env : local.CommitEnv) (s : local.Storage) (mode : Z)
        (ps : list bytes) (ref : types.Ref) :
  local.SaveRefFile env = None -> local.Fchmod env = None ->
  local.Linkat_fault env = None ->
  types.String ref ∉ (local.blobDir s).*1 ->
  (local.Commit env s (Writes ps (local.mkTmp (Some (os.mkFile [] mode)))) ref).1.2
  = local.mkStorage (local.blobDir s ++ [(types.String ref, os.mkFile (concat ps) local.roPerm)]).
Proof.
  intros Hsave Hch Hfault Hnot. rewrite Writes_content.
  by rewrite Commit_fresh.
Qed.

Lemma Write_Commit_witness :
  (local.Commit late_failures (local.mkStorage [])
     (Writes [bs "hel"; bs "lo"] (local.mkTmp (Some (os.mkFile [] 384))))
     (toy_hash (bs "hello"))).1.2
  = local.mkStorage (local.blobDir (local.mkStorage [])
                     ++ [(types.String (toy_hash (bs "hello")),
                          os.mkFile (concat [bs "hel"; bs "lo"]) local.roPerm)]).
Proof.
  apply (Write_Commit late_failures (local.mkStorage []) 384 [bs "hel"; bs "lo"]
           (toy_hash (bs "hello"))).
  - reflexivity.
  - reflexivity.
  - reflexivity.
  - vm_compute. apply not_elem_of_nil.
Defined.

(** X16. One [Commit] leaves the blob directory as it is, or adds one
    entry at its end: then the canonical name of the reference was free,
    and the entry binds it to the bytes of the temporary file with the
    mode 0444.  No entry is removed, renamed or rewritten, whatever
    [Commit] returns. *)
Theorem Commit_only_adds (env : local.CommitEnv) (s : local.Storage)
        (t : local.linuxTmpFile) (ref : types.Ref) :
  let s' := (local.Commit env s t ref).1.2 in
  local.blobDir s' = local.blobDir s
  \/ ((types.String ref ∉ (local.blobDir s).*1)
      /\ exists tmp,
           local.f t = Some tmp
           /\ local.blobDir s'
              = local.blobDir s ++ [(types.String ref, os.mkFile (os.content tmp) local.roPerm)]).
Proof.
  cbv zeta. unfold local.Commit. destruct (local.f t) as [tmp|] eqn:Hf; [|by left].
  destruct (local.SaveRefFile env); [by left|]. destruct (local.Fchmod env); [by left|].
  destruct (linkFile_cases (local.Linkat_fault env) (local.blobDir s) (types.String ref)
              (os.mkFile (os.content tmp) local.roPerm))
    as [(code & _ & ->)|[(_ & Hin & ->)|(_ & Hnot & ->)]]; cbn; [by left|by left|].
  right. split; [done|]. exists tmp. split; [done|].
  by destruct (local.addNotIndexed env).
Qed.

(** The entries a [Commit] adds are read-only. *)
Lemma Commit_grows env s t ref :
  exists new,
    local.blobDir (local.Commit env s t ref).1.2 = local.blobDir s ++ new
    /\ Forall (fun e => os.perm e.2 = local.roPerm) new.
Proof.
  unfold local.Commit. destruct (local.f t) as [tmp|] eqn:Hf;
    [|by exists []; rewrite app_nil_r].
  destruct (local.SaveRefFile env); [by exists []; rewrite app_nil_r|].
  destruct (local.Fchmod env); [by exists []; rewrite app_nil_r|].
  destruct (linkFile_cases (local.Linkat_fault env) (local.blobDir s) (types.String ref)
              (os.mkFile (os.content tmp) local.roPerm))
    as [(code & _ & ->)|[(_ & Hin & ->)|(_ & Hnot & ->)]]; cbn;
    [by exists []; rewrite app_nil_r..|].
  exists [(types.String ref, os.mkFile (os.content tmp) local.roPerm)].
  split; [by destruct (local.addNotIndexed env)|]. by repeat constructor.
Qed.

(** X17. Blobs are immutable under any run of commits.  From a directory
    that holds no name twice, a run of calls to [Commit], with whatever
    system answers and outcomes, leads to a directory that holds no name
    twice, that begins with the entries it had, unchanged and in their
    order, and in which every other entry has the mode 0444. *)
Theorem Commits_immutable (cs : list (local.CommitEnv * local.linuxTmpFile * types.Ref))
        (s : local.Storage) :
  wf_dir (local.blobDir s) ->
  wf_dir (local.blobDir (Commits cs s))
  /\ local.blobDir s `prefix_of` local.blobDir (Commits cs s)
  /\ (forall name file,
        (name, file) ∈ local.blobDir (Commits cs s) ->
        (name, file) ∈ local.blobDir s \/ os.perm file = local.roPerm).
Proof.
  revert s. induction cs as [|[[env t] ref] cs IH]; intros s Hwf.
  - cbn. split; [done|]. split; [done|]. auto.
  - cbn [Commits]. pose proof (Commit_wf env s t ref Hwf) as Hwf1.
    destruct (IH _ Hwf1) as (Hwf' & Hpre & Hperm). split; [done|].
    destruct (Commit_grows env s t ref) as (new & Heq & Hnew).
    rewrite Heq in Hpre, Hperm. split.
    + etrans; [|exact Hpre]. by apply prefix_app_r.
    + intros name file Hin. destruct (Hperm name file Hin) as [Hold|Hro]; [|by right].
      apply elem_of_app in Hold as [Hold|Hin']; [by left|]. right.
      rewrite Forall_forall in Hnew. exact (Hnew _ Hin').
Qed.

Lemma Commits_immutable_witness :
  let s := local.mkStorage [(bs "a", os.mkFile (bs "x") 292%Z)] in
  let cs := [(calm, staged (bs "hello"), toy_hash (bs "hello"));
             (late_failures, staged (bs "world"), toy_hash (bs "world"))] in
  wf_dir (local.blobDir (Commits cs s))
  /\ local.blobDir s `prefix_of` local.blobDir (Commits cs s)
  /\ (forall name file,
        (name, file) ∈ local.blobDir (Commits cs s) ->
        (name, file) ∈ local.blobDir s \/ os.perm file = local.roPerm).
Proof.
  intros s cs. apply (Commits_immutable cs s).
  apply (bool_decide_unpack _). vm_compute. reflexivity.
Defined.

(** X18. The first blob under a name stays.  When the canonical name of
    the reference is in the blob directory and [SaveRefFile], [Fchmod]
    and [Linkat] do not fail for other reasons, [Commit] of a temporary
    file with any content returns nil and leaves the directory as it is,
    with the bytes that were kept under the name; [addNotIndexed] and the
    final [Close] are not reached, so their failing changes nothing. *)
Theorem Commit_first_wins (env : local.CommitEnv) (s : local.Storage)
        (tmp kept : os.File) (ref : types.Ref) :
  local.SaveRefFile env = None -> local.Fchmod env = None ->
  local.Linkat_fault env = None ->
  (types.String ref, kept) ∈ local.blobDir s ->
  let '(err, s', t') := local.Commit env s (local.mkTmp (Some tmp)) ref in
  err = None /\ s' = s /\ (types.String ref, kept) ∈ local.blobDir s' /\ local.f t' = None.
Proof.
  intros Hsave Hch Hfault Hin. rewrite Commit_exists; try done.
  apply list_elem_of_fmap. by exists (types.String ref, kept).
Qed.

Lemma Commit_first_wins_witness :
  let s := local.mkStorage [(types.String (toy_hash (bs "hello")), os.mkFile (bs "hello") 292%Z)] in
  let '(err, s', t') :=
    local.Commit late_failures s (staged (bs "other")) (toy_hash (bs "hello")) in
  err = None /\ s' = s
  /\ (types.String (toy_hash (bs "hello")), os.mkFile (bs "hello") 292%Z) ∈ local.blobDir s'
  /\ local.f t' = None.
Proof.
  intros s.
  apply (Commit_first_wins late_failures s (os.mkFile (bs "other") 384)
           (os.mkFile (bs "hello") 292%Z) (toy_hash (bs "hello"))).
  - reflexivity.
  - reflexivity.
  - reflexivity.
  - apply list_elem_of_singleton. reflexivity.
Defined.

(** ** [tmpFile]: the flag and the fallback *)

(** A call of [tmpFile] that reads the flag as 0, by what [unix.Open]
    answers. *)
Lemma tmpFile_zero answer rw p :
  local.noTmpFile p = 0%Z ->
  local.tmpFile answer rw p
  = match answer with
    | local.OpenErr syscall.EISDIR =>
        (local.Generic,
         local.mkProcess 1 (local.trace p ++ [local.EvOpen (open_flags rw); local.EvTmpFileGen]))
    | local.OpenErr syscall.EOPNOTSUPP =>
        (local.Generic,
         local.mkProcess 0 (local.trace p ++ [local.EvOpen (open_flags rw); local.EvTmpFileGen]))
    | local.OpenErr err =>
        (local.Failed (os.Errorf (bs "cannot create temp file: %v") (os.Errno err)),
         local.mkProcess 0 (local.trace p ++ [local.EvOpen (open_flags rw)]))
    | local.Opened fd =>
        (local.Anonymous fd, local.mkProcess 0 (local.trace p ++ [local.EvOpen (open_flags rw)]))
    end.
Proof.
  intros Hp. unfold local.tmpFile, local.LoadInt32, local.unix_Open, local.tmpFileGen,
    local.StoreInt32, open_flags. rewrite Hp.
  destruct rw, answer as [fd|[]]; cbn; rewrite <- ?(assoc_L (++)); reflexivity.
Qed.

(** X19. Only [EISDIR] sets the flag.  After any run of calls to [tmpFile]
    that starts with the flag at 0, the flag is 0 or 1, and it is 1
    exactly when [unix.Open] was answered [EISDIR] for one of the calls;
    no other error number, and no success, sets it, and nothing sets it
    back. *)
Theorem tmpFiles_flag (calls : list (local.OpenResult * bool)) (p : local.Process) :
  local.noTmpFile p = 0%Z ->
  let flag := local.noTmpFile (local.tmpFiles calls p).2 in
  (flag = 0%Z \/ flag = 1%Z)
  /\ (flag = 1%Z <-> exists rw, (local.OpenErr syscall.EISDIR, rw) ∈ calls).
Proof.
  revert p. induction calls as [|[answer rw] calls IH]; intros p Hp; cbv zeta.
  - cbn. rewrite Hp. split; [by left|]. split; [done|]. intros [rw' Hin].
    by apply elem_of_nil in Hin.
  - cbn [local.tmpFiles].
    destruct (local.tmpFile answer rw p) as [t p1] eqn:Ht.
    destruct (local.tmpFiles calls p1) as [ts p2] eqn:Hts. cbn [snd].
    rewrite tmpFile_zero in Ht by done.
    assert (answer = local.OpenErr syscall.EISDIR /\ local.noTmpFile p1 = 1%Z
            \/ answer <> local.OpenErr syscall.EISDIR /\ local.noTmpFile p1 = 0%Z) as Hcase.
    { destruct answer as [fd|[]]; injection Ht as <- <-; cbn; auto. }
    destruct Hcase as [[-> Hp1]|[Hne Hp1]].
    + rewrite tmpFiles_fallback in Hts by (rewrite Hp1; done).
      injection Hts as <- <-. cbn. rewrite Hp1. split; [by right|].
      split; [|done]. intros _. exists rw. apply elem_of_cons. by left.
    + specialize (IH p1 Hp1). cbv zeta in IH. rewrite Hts in IH. cbn [snd] in IH.
      destruct IH as [H01 Hiff]. split; [done|]. rewrite Hiff. split.
      * intros [rw' Hin]. exists rw'. apply elem_of_cons. by right.
      * intros [rw' Hin]. apply elem_of_cons in Hin as [Heq|Hin]; [|by exists rw'].
        injection Heq as Heq _. by rewrite Heq in Hne.
Qed.

Lemma tmpFiles_flag_witness :
  let calls := [(local.Opened 3, true); (local.OpenErr syscall.EOPNOTSUPP, false);
                (local.OpenErr syscall.EISDIR, false); (local.Opened 4, true)] in
  let flag := local.noTmpFile (local.tmpFiles calls (local.mkProcess 0 [])).2 in
  (flag = 0%Z \/ flag = 1%Z)
  /\ (flag = 1%Z <-> exists rw, (local.OpenErr syscall.EISDIR, rw) ∈ calls).
Proof.
  intros calls. apply (tmpFiles_flag calls (local.mkProcess 0 [])). reflexivity.
Defined.

(** X20. [EOPNOTSUPP] is a fallback for one call only.  With the flag at
    0, a call that [unix.Open] answers with [EOPNOTSUPP] returns what
    [tmpFileGen] returns, and the call after it asks [unix.Open] again:
    answered with a descriptor, it returns the anonymous file of this
    descriptor; the flag is still 0, and [unix.Open] was called twice. *)
Theorem tmpFile_EOPNOTSUPP_retry (rw rw' : bool) (fd : Z) (p : local.Process) :
  local.noTmpFile p = 0%Z ->
  let '(ts, p') :=
    local.tmpFiles [(local.OpenErr syscall.EOPNOTSUPP, rw); (local.Opened fd, rw')] p in
  ts = [local.Generic; local.Anonymous fd]
  /\ local.noTmpFile p' = 0%Z
  /\ opens_made (local.trace p') = opens_made (local.trace p) + 2.
Proof.
  intros Hp. unfold local.tmpFiles. rewrite (tmpFile_zero _ rw p) by done.
  cbv beta iota zeta. rewrite tmpFile_zero by done. cbv beta iota zeta. cbn [local.trace].
  split; [done|]. split; [done|]. rewrite !opens_made_app. cbn. lia.
Qed.

Lemma tmpFile_EOPNOTSUPP_retry_witness :
  let '(ts, p') :=
    local.tmpFiles [(local.OpenErr syscall.EOPNOTSUPP, true); (local.Opened 3, false)]
                   (local.mkProcess 0 []) in
  ts = [local.Generic; local.Anonymous 3]
  /\ local.noTmpFile p' = 0%Z
  /\ opens_made (local.trace p') = opens_made (local.trace (local.mkProcess 0 [])) + 2.
Proof.
  apply (tmpFile_EOPNOTSUPP_retry true false 3 (local.mkProcess 0 [])). reflexivity.
Defined.

(** X21. The error that [tmpFile] builds itself.  A call returns the error
    "cannot create temp file" exactly when it read the flag as 0 and
    [unix.Open] answered an error number other than [EISDIR] and
    [EOPNOTSUPP]; the error then holds this error number, [unix.Open] was
    called once, with [O_TMPFILE], [O_CLOEXEC] and the access mode that
    [rw] asks for, [tmpFileGen] was not called, and the flag is still 0.
    In every other case the call returns the anonymous file or hands on
    what [tmpFileGen] returns, which may be an error of [tmpFileGen]. *)
Theorem tmpFile_Failed (answer : local.OpenResult) (rw : bool) (p p' : local.Process)
        (err : os.error) :
  local.tmpFile answer rw p = (local.Failed err, p')
  <-> local.noTmpFile p = 0%Z
      /\ (exists e, answer = local.OpenErr e /\ plain_errno e
                    /\ err = os.Errorf (bs "cannot create temp file: %v") (os.Errno e))
      /\ p' = local.mkProcess 0 (local.trace p ++ [local.EvOpen (open_flags rw)]).
Proof.
  destruct (decide (local.noTmpFile p = 0%Z)) as [Hp|Hp].
  - rewrite tmpFile_zero by done. unfold plain_errno. split.
    + destruct answer as [fd|[]]; try done; intros [= <- <-];
        (split; [done|]); (split; [|done]);
        eexists; (split; [done|]); (split; [split|]); done.
    + intros (_ & (e & -> & [He1 He2] & ->) & ->). by destruct e.
  - rewrite tmpFile_fallback by done. split; [done|]. by intros [? _].
Qed.

(** ** [HashWith] and [Hash] *)

Section hash.

Variable Sum : bytes -> types.Ref.

(** X22. A file that [StatFile] knows is not read.  When the file opens
    and [StatFile] answers a reference that is not the zero one,
    [HashWith] without [force] returns this answer as it is, whatever the
    bytes of the file are and even if they cannot be read; [SaveRefFile]
    is not asked and nothing is printed to the log. *)
Theorem HashWith_known (env : cas.Env) (log : list os.error) (path : bytes)
        (info : option cas.FileInfo) (f : io.Reader) (sr : types.SizedRef) :
  cas.Open env path = inr f ->
  cas.StatFile env path = inr sr ->
  types.Zero (types.SizedRef_Ref sr) = false ->
  cas.HashWith Sum env log path info false = (inr sr, log).
Proof.
  intros Hopen Hstat Hzero. unfold cas.HashWith. rewrite Hopen, Hstat. cbn. by rewrite Hzero.
Qed.

(** X23. The errors of [HashWith].  When [HashWith] returns an error,
    nothing was printed to the log, and the error is the one of
    [os.Open], or the file had opened and reading it failed with an
    error other than the end of input, which is the error returned.  An
    error of [StatFile] or of [SaveRefFile] is never returned. *)
Theorem HashWith_error (env : cas.Env) (log log' : list os.error) (path : bytes)
        (info : option cas.FileInfo) (force : bool) (err : os.error) :
  cas.HashWith Sum env log path info force = (inl err, log') ->
  log' = log
  /\ (cas.Open env path = inl err
      \/ exists f, cas.Open env path = inr f
                   /\ io.final f <> io.EOF
                   /\ err = os.Read (io.final f)).
Proof.
  unfold cas.HashWith. destruct (cas.Open env path) as [e|f] eqn:Hopen.
  - intros [= <- <-]. split; [done|]. by left.
  - match goal with
    | |- context [match ?h with Some sr => _ | None => _ end] => destruct h as [sr|]
    end; [done|].
    unfold io.Copy. destruct (io.final f) eqn:Hfin; [done|..];
      intros [= <- <-]; (split; [done|]); right; exists f; rewrite Hfin; done.
Qed.

(** X24. What [Hash] returns.  When [Hash] returns a [SizedRef], [os.Stat]
    and [os.Open] had succeeded, and either the result is the answer of
    [StatFile], a non-zero reference, with nothing printed; or [StatFile]
    missed, the file was read to its end, the result is the content hash
    and the number of bytes read, [SaveRefFile] was given what [os.Stat]
    answered, and its error, if any, is all that was printed. *)
Theorem Hash_result (Stat : bytes -> os.error + cas.FileInfo) (env : cas.Env)
        (log log' : list os.error) (path : bytes) (sr : types.SizedRef) :
  cas.Hash Sum Stat env log path = (inr sr, log') ->
  exists st f,
    Stat path = inr st /\ cas.Open env path = inr f
    /\ ((cas.StatFile env path = inr sr /\ types.Zero (types.SizedRef_Ref sr) = false
         /\ log' = log)
        \/ (stat_miss env path /\ io.final f = io.EOF
            /\ sr = types.mkSizedRef (Sum (io.pending f))
                      (cas.uint64 (Z.of_nat (length (io.pending f))))
            /\ log' = log ++ match cas.SaveRefFile env path (Some st) (Sum (io.pending f)) with
                             | Some e => [e]
                             | None => []
                             end)).
Proof.
  unfold cas.Hash, cas.HashWith. destruct (Stat path) as [e|st] eqn:Hstat; [done|].
  destruct (cas.Open env path) as [e|f] eqn:Hopen; [done|]. cbn [negb].
  intros H. exists st, f. split; [done|]. split; [done|].
  destruct (cas.StatFile env path) as [e|sr'] eqn:Hsf.
  - right. revert H. unfold io.Copy. destruct (io.final f) eqn:Hfin; [|done..].
    intros [= <- <-]. split; [intros sr0 Hs; rewrite Hsf in Hs; done|].
    split; [done|]. split; [done|].
    destruct (cas.SaveRefFile _ _ _ _); [done|by rewrite app_nil_r].
  - destruct (types.Zero (types.SizedRef_Ref sr')) eqn:Hz; cbn [negb] in H.
    + right. revert H. unfold io.Copy. destruct (io.final f) eqn:Hfin; [|done..].
      intros [= <- <-]. split; [intros sr0 Hs; rewrite Hsf in Hs; by injection Hs as <-|].
      split; [done|]. split; [done|].
      destruct (cas.SaveRefFile _ _ _ _); [done|by rewrite app_nil_r].
    + left. injection H as <- <-. done.
Qed.

End hash.

Lemma HashWith_known_witness :
  cas.HashWith toy_hash known_file [] (bs "a.txt") None false
  = (inr (types.mkSizedRef (toy_hash (bs "content")) 7), []).
Proof.
  apply (HashWith_known toy_hash known_file [] (bs "a.txt") None
           (io.mkReader (bs "con") (io.Failure 5))).
  - reflexivity.
  - reflexivity.
  - vm_compute. reflexivity.
Defined.

Lemma HashWith_error_witness :
  [] = ([] : list os.error)
  /\ (cas.Open known_file (bs "a.txt") = inl (os.Read (io.Failure 5))
      \/ exists f, cas.Open known_file (bs "a.txt") = inr f
                   /\ io.final f <> io.EOF
                   /\ os.Read (io.Failure 5) = os.Read (io.final f)).
Proof.
  apply (HashWith_error toy_hash known_file [] [] (bs "a.txt") None true
           (os.Read (io.Failure 5))).
  vm_compute. reflexivity.
Defined.

Lemma Hash_result_witness :
  exists st f,
    any_stat (bs "a.txt") = inr st /\ cas.Open one_file (bs "a.txt") = inr f
    /\ ((cas.StatFile one_file (bs "a.txt")
         = inr (types.mkSizedRef (toy_hash (bs "content")) 7)
         /\ types.Zero (types.SizedRef_Ref (types.mkSizedRef (toy_hash (bs "content")) 7)) = false
         /\ [os.Other (bs "read-only file system")] = [])
        \/ (stat_miss one_file (bs "a.txt") /\ io.final f = io.EOF
            /\ types.mkSizedRef (toy_hash (bs "content")) 7
               = types.mkSizedRef (toy_hash (io.pending f))
                   (cas.uint64 (Z.of_nat (length (io.pending f))))
            /\ [os.Other (bs "read-only file system")]
               = [] ++ match cas.SaveRefFile one_file (bs "a.txt") (Some st)
                               (toy_hash (io.pending f)) with
                       | Some e => [e]
                       | None => []
                       end)).
Proof.
  apply (Hash_result toy_hash any_stat one_file [] [os.Other (bs "read-only file system")]
           (bs "a.txt") (types.mkSizedRef (toy_hash (bs "content")) 7)).
  vm_compute. reflexivity.
Defined.

(** ** The extension of a file name *)

(** A result of the loop of [filepath.Ext] that is not empty starts at a
    dot of the path and runs to its end. *)
Lemma Ext_loop_dot rev tail e :
  filepath.Ext_loop rev tail = e -> e <> [] ->
  exists r1 r2, rev = r1 ++ "."%byte :: r2 /\ e = "."%byte :: reverse r1 ++ tail.
Proof.
  revert tail. induction rev as [|c rev IH]; intros tail; cbn [filepath.Ext_loop].
  - by intros <-.
  - destruct (Byte.eqb c "/"%byte); [by intros <-|].
    destruct (Byte.eqb c "."%byte) eqn:Hdot.
    + apply Byte.byte_dec_bl in Hdot as ->. intros <- _. by exists [], rev.
    + intros He Hne. destruct (IH _ He Hne) as (r1 & r2 & -> & ->).
      exists (c :: r1), r2. split; [done|]. rewrite reverse_cons, <- (assoc_L (++)). done.
Qed.

(** The extension is [.gz] exactly for the names that end with it. *)
Lemma Ext_gz name : filepath.Ext name = bs ".gz" <-> bs ".gz" `suffix_of` name.
Proof.
  unfold filepath.Ext. split.
  - intros He. destruct (Ext_loop_dot _ _ _ He) as (r1 & r2 & Hrev & Hgz); [done|].
    rewrite app_nil_r in Hgz. injection Hgz as Hgz.
    exists (reverse r2). rewrite <- (reverse_involutive name), Hrev.
    rewrite reverse_app, reverse_cons, <- Hgz, <- (assoc_L (++)). done.
  - intros [pre ->]. rewrite reverse_app. reflexivity.
Qed.

Section hooks.

Context {Storage BlobWriter : Type}.
Variable indexGZIP : Storage -> BlobWriter.
Variable StoreSchema : Storage -> cas.Compressed -> (os.error + types.SizedRef) * Storage.

(** X25. The two hooks of [ext.go] act on the same names, those that end
    with [.gz] in this spelling.  For such a name [indexFileByExt]
    returns the writer of [indexGZIP], and [storeIndexByExt] stores a
    [Compressed] record of the archive [orig], the content [ref] and the
    algorithm [gzip] and returns what [StoreSchema] returns.  For every
    other name [indexFileByExt] returns nil and [storeIndexByExt] returns
    the zero [SizedRef] and no error, and stores nothing. *)
Theorem gz_hooks (s : Storage) (name : bytes) (orig ref : types.SizedRef) :
  (bs ".gz" `suffix_of` name ->
   cas.indexFileByExt Storage BlobWriter indexGZIP s name = Some (indexGZIP s)
   /\ cas.storeIndexByExt Storage StoreSchema s name orig ref
      = StoreSchema s (cas.mkCompressed orig ref (bs "gzip")))
  /\ (~ bs ".gz" `suffix_of` name ->
      cas.indexFileByExt Storage BlobWriter indexGZIP s name = None
      /\ cas.storeIndexByExt Storage StoreSchema s name orig ref
         = (inr (types.mkSizedRef types.zero 0), s)).
Proof.
  unfold cas.indexFileByExt, cas.storeIndexByExt. cbv zeta.
  split; intros Hs; rewrite <- Ext_gz in Hs.
  - by rewrite !decide_True.
  - by rewrite !decide_False.
Qed.

End hooks.

(** ** The commands [cas init] *)

Lemma TrimPrefix_app prefix s : strings.TrimPrefix (prefix ++ s) prefix = s.
Proof.
  unfold strings.TrimPrefix, strings.HasPrefix.
  rewrite bool_decide_true by (rewrite length_app; lia).
  rewrite take_app_length, bool_decide_true by done. cbn. by rewrite drop_app_length.
Qed.

Section init.

Context {State : Type}.
Variable cas_Init : bytes -> main.Config -> State -> option os.error * State.
Variable casDir : bytes.
Variable url_Parse : bytes -> option os.error.

(** X26. The bucket of [cas init gcs] may be given with or without the
    scheme: for the one argument [gs://] followed by [b] the command runs
    [cas.Init] with the bucket [b], one scheme being cut off, and so it
    does for the argument [b] itself when [b] does not start with
    [gs://]. *)
Theorem init_gcs_bucket (b : bytes) (st : State) :
  main.casInitCmd State cas_Init casDir main.init_gcs [bs "gs://" ++ b] st
  = cas_Init casDir (main.gcs_Config b) st
  /\ (strings.HasPrefix b (bs "gs://") = false ->
      main.casInitCmd State cas_Init casDir main.init_gcs [b] st
      = cas_Init casDir (main.gcs_Config b) st).
Proof.
  unfold main.casInitCmd, main.init_gcs. cbn [length Nat.eqb negb nth]. split.
  - by rewrite TrimPrefix_app.
  - intros Hb. unfold strings.TrimPrefix. by rewrite Hb.
Qed.

(** X27. What the commands [cas init] refuse.  With a number of arguments
    other than one, [init http] and [init gcs] return their error,
    "expected a URL of the server" and "expected a GCS bucket", and
    [cas.Init] is not run; [init http] with one argument that [url.Parse]
    refuses returns the error of [url.Parse] and does not run [cas.Init],
    and with one it accepts runs [cas.Init] with the argument as it was
    given; [init] runs [cas.Init] with the local directory [.], whatever
    its arguments. *)
Theorem init_refuses (args : list bytes) (st : State) :
  (length args <> 1 ->
   main.casInitCmd State cas_Init casDir (main.init_http url_Parse) args st
   = (Some (os.Other (bs "expected a URL of the server")), st)
   /\ main.casInitCmd State cas_Init casDir main.init_gcs args st
      = (Some (os.Other (bs "expected a GCS bucket")), st))
  /\ (forall addr err,
        args = [addr] -> url_Parse addr = Some err ->
        main.casInitCmd State cas_Init casDir (main.init_http url_Parse) args st
        = (Some err, st))
  /\ (forall addr,
        args = [addr] -> url_Parse addr = None ->
        main.casInitCmd State cas_Init casDir (main.init_http url_Parse) args st
        = cas_Init casDir (main.httpstor_Config addr) st)
  /\ main.casInitCmd State cas_Init casDir main.init_local args st
     = cas_Init casDir (main.local_Config (bs ".")) st.
Proof.
  unfold main.casInitCmd, main.init_http, main.init_gcs, main.init_local.
  split; [|split; [|split]].
  - intros Hlen. apply Nat.eqb_neq in Hlen. by rewrite Hlen.
  - intros addr err -> Herr. cbn. by rewrite Herr.
  - intros addr -> Hok. cbn. by rewrite Hok.
  - done.
Qed.

End init.
